(** * AI generation proxy: provider adapters, routing dispatcher, client guard

    A shallow embedding of the AI router ([aiProviders] and the handler of
    [POST /generate]) and of the client-side caller
    [generatePostWithGemini], with the properties the specification states
    about them.

    JavaScript strings are modelled as [string]; a character stands for one
    code unit below 256.  The outside world (the vendors' SDKs and HTTP
    endpoints, [process.env]) is a parameter of every function, and every
    function returns, next to its result, the list of outbound calls it
    made. *)

From Stdlib Require Import Ascii.
From Stdlib Require String.
From stdpp Require Import base list strings gmap pretty.

Set Default Proof Using "Type".

(** ** JavaScript strings *)

Module JsString.

(** [WhiteSpace] and [LineTerminator] of ECMAScript, for code units below
    256: TAB, LF, VT, FF, CR, SP and NBSP. *)
Definition is_white_space (c : ascii) : bool :=
  let n := nat_of_ascii c in
  ((9 <=? n) && (n <=? 13)) || (n =? 32) || (n =? 160).

Fixpoint trimStart (s : string) : string :=
  match s with
  | EmptyString => EmptyString
  | String c s' => if is_white_space c then trimStart s' else s
  end.

Fixpoint trimEnd (s : string) : string :=
  match s with
  | EmptyString => EmptyString
  | String c s' =>
      match trimEnd s' with
      | EmptyString => if is_white_space c then EmptyString else String c EmptyString
      | t => String c t
      end
  end.

(** [String.prototype.trim] *)
Definition trim (s : string) : string := trimEnd (trimStart s).

Fixpoint startsWith (s needle : string) {struct needle} : bool :=
  match needle, s with
  | EmptyString, _ => true
  | String _ _, EmptyString => false
  | String a needle', String b s' =>
      if Ascii.eqb a b then startsWith s' needle' else false
  end.

(** [String.prototype.includes] *)
Fixpoint includes (s needle : string) : bool :=
  startsWith s needle ||
  match s with
  | EmptyString => false
  | String _ s' => includes s' needle
  end.

(** Lower-casing of one code unit below 256: A-Z, and the Latin-1
    capitals U+00C0-U+00DE except the multiplication sign U+00D7. *)
Definition lower_char (c : ascii) : ascii :=
  let n := nat_of_ascii c in
  if ((65 <=? n) && (n <=? 90)) ||
     ((192 <=? n) && (n <=? 222) && negb (n =? 215))
  then ascii_of_nat (n + 32) else c.

(** [String.prototype.toLowerCase] *)
Fixpoint toLowerCase (s : string) : string :=
  match s with
  | EmptyString => EmptyString
  | String c s' => String (lower_char c) (toLowerCase s')
  end.

(** Truthiness of a string: every string but the empty one. *)
Definition truthy (s : string) : bool :=
  match s with EmptyString => false | _ => true end.

End JsString.

(** ** JavaScript values, as far as JSON carries them

    A number is kept as an integer: the router looks at numbers only for
    their truth value and, in an error message, their decimal form. *)

#[warnings="-register-all"]
Inductive JsVal : Type :=
| JUndefined
| JNull
| JBool (b : bool)
| JNum (z : Z)
| JStr (s : string)
| JArr (items : list JsVal)
| JObj (fields : list (string * JsVal)).

(** A thrown value, seen through its [message] property ([None] when the
    property is [undefined]). *)
Record JsError : Type := mkError { message : option string }.

(** [new Error(msg)] and the engine's [TypeError]s. *)
Definition new_Error (msg : string) : JsError := mkError (Some msg).
Definition TypeError (msg : string) : JsError := mkError (Some msg).

(** A computation that may throw. *)
Definition Throws (A : Type) : Type := JsError + A.

Definition bindT {A B} (c : Throws A) (k : A -> Throws B) : Throws B :=
  match c with
  | inl e => inl e
  | inr a => k a
  end.

Notation "x <- c ;; k" := (bindT c (fun x => k))
  (at level 100, c at next level, right associativity).

Module Js.

(** ToBoolean *)
Definition truthy (v : JsVal) : bool :=
  match v with
  | JUndefined | JNull => false
  | JBool b => b
  | JNum z => negb (Z.eqb z 0)
  | JStr s => JsString.truthy s
  | JArr _ | JObj _ => true
  end.

(** [a || b] *)
Definition or (a b : JsVal) : JsVal := if truthy a then a else b.

(** [v === s] for a string literal [s] *)
Definition is_string (v : JsVal) (s : string) : bool :=
  match v with
  | JStr s' => String.eqb s' s
  | _ => false
  end.

Fixpoint assoc (fields : list (string * JsVal)) (k : string) : JsVal :=
  match fields with
  | [] => JUndefined
  | (k', v) :: rest => if String.eqb k' k then v else assoc rest k
  end.

(** Own property of a JSON object, last writer wins as in [JSON.parse]. *)
Definition own (fields : list (string * JsVal)) (k : string) : JsVal :=
  assoc (rev fields) k.

(** [v.k] for the property names the router reads ([error], [code],
    [message], [choices], [content], [text]): none of them is a property
    of a primitive or of an array. *)
Definition get (v : JsVal) (k : string) : Throws JsVal :=
  match v with
  | JUndefined =>
      inl (TypeError ("Cannot read properties of undefined (reading '" +:+ k +:+ "')"))
  | JNull =>
      inl (TypeError ("Cannot read properties of null (reading '" +:+ k +:+ "')"))
  | JObj fields => inr (own fields k)
  | _ => inr JUndefined
  end.

(** [v?.k] *)
Definition get_opt (v : JsVal) (k : string) : JsVal :=
  match v with
  | JObj fields => own fields k
  | _ => JUndefined
  end.

(** [v[0]] *)
Definition first (v : JsVal) : Throws JsVal :=
  match v with
  | JUndefined => inl (TypeError "Cannot read properties of undefined (reading '0')")
  | JNull => inl (TypeError "Cannot read properties of null (reading '0')")
  | JArr items => inr (hd JUndefined items)
  | JObj fields => inr (own fields "0")
  | JStr (String c _) => inr (JStr (String c EmptyString))
  | _ => inr JUndefined
  end.

(** ToString, used where a value becomes an error message: for a number
    its decimal form (that of JavaScript below 10^21 in magnitude), for an
    object the text of [Object.prototype.toString]. *)
Fixpoint ToString (v : JsVal) : string :=
  match v with
  | JUndefined => "undefined"
  | JNull => "null"
  | JBool true => "true"
  | JBool false => "false"
  | JNum z => pretty z
  | JStr s => s
  | JArr items =>
      (fix join (l : list JsVal) : string :=
         match l with
         | [] => EmptyString
         | x :: l' =>
             let sx := match x with JUndefined | JNull => EmptyString | _ => ToString x end in
             match l' with
             | [] => sx
             | _ => sx +:+ "," +:+ join l'
             end
         end) items
  | JObj _ => "[object Object]"
  end.

(** [text.trim()] on a value known to be truthy: a method of strings
    only. *)
Definition call_trim (what : string) (v : JsVal) : Throws string :=
  match v with
  | JStr s => inr (JsString.trim s)
  | _ => inl (TypeError (what +:+ ".trim is not a function"))
  end.

End Js.

(** ** The outside world *)

(** What [fetch] resolves to: the status line and the outcome of
    [response.json()]. *)
Record HttpResponse : Type := mkResponse {
  status : nat;
  json : Throws JsVal
}.

(** [response.ok] *)
Definition ok (r : HttpResponse) : bool :=
  (200 <=? status r) && (status r <=? 299).

(** One answer per outbound call, as a function of the credential, the
    model name and the prompt. *)
Record World : Type := mkWorld {
  (** [groq.chat.completions.create], resolving to the parsed completion *)
  groq_create : string -> string -> string -> Throws JsVal;
  (** [model.generateContent] followed by [response.text()] *)
  gemini_generateContent : string -> string -> string -> Throws string;
  (** [fetch] of the OpenAI chat completions endpoint *)
  openai_fetch : string -> string -> string -> Throws HttpResponse;
  (** [fetch] of the Anthropic messages endpoint, for its one fixed model *)
  claude_fetch : string -> string -> Throws HttpResponse
}.

(** ** Provider adapters *)

Record GenerationResult : Type := mkResult {
  text : string;
  model : string;
  provider : string
}.

(** How one turn of a model loop ends: [return], the next turn (by
    [continue] or by falling out of the [try]), or a [throw] that leaves the
    adapter. *)
Inductive Step : Type :=
| Return (r : GenerationResult)
| Continue
| Throw (e : JsError).

(** [for (const modelName of modelsToTry) { try ... catch ... }] followed by
    [throw new Error(exhausted)].  The first component lists the models for
    which an outbound call was made. *)
Fixpoint for_models (attempt : string -> Step) (exhausted : string)
    (modelsToTry : list string) : list string * Throws GenerationResult :=
  match modelsToTry with
  | [] => ([], inl (new_Error exhausted))
  | modelName :: rest =>
      match attempt modelName with
      | Return r => ([modelName], inr r)
      | Throw e => ([modelName], inl e)
      | Continue =>
          let '(calls, res) := for_models attempt exhausted rest in
          (modelName :: calls, res)
      end
  end.

(** [err.message?.includes(needle)], as a condition *)
Definition message_includes (err : JsError) (needle : string) : bool :=
  match message err with
  | Some m => JsString.includes m needle
  | None => false
  end.

(** [if (text && text.trim()) return { text: text.trim(), ... }] *)
Definition return_if_text (textv : JsVal) (modelName providerName : string)
    : Throws (option GenerationResult) :=
  if Js.truthy textv then
    t <- Js.call_trim "text" textv ;;
    if JsString.truthy t
    then inr (Some (mkResult t modelName providerName))
    else inr None
  else inr None.

(** [data.choices[0]?.message?.content] *)
Definition first_choice_content (data : JsVal) : Throws JsVal :=
  choices <- Js.get data "choices" ;;
  choice <- Js.first choices ;;
  inr (Js.get_opt (Js.get_opt choice "message") "content").

Module Groq.

Definition modelsToTry : list string :=
  [ "llama-3.1-8b-instant"; "llama-3.1-70b-versatile";
    "llama-3-8b-8192"; "mixtral-8x7b-32768" ].

(** The body of the [try]; [None] when control falls out of it. *)
Definition try_body (w : World) (prompt apiKey modelName : string)
    : Throws (option GenerationResult) :=
  chat <- groq_create w apiKey modelName prompt ;;
  textv <- first_choice_content chat ;;
  return_if_text textv modelName "groq".

Definition catch (err : JsError) : Step :=
  if message_includes err "model" || message_includes err "404"
  then Continue
  else Throw err.

Definition attempt (w : World) (prompt apiKey modelName : string) : Step :=
  match try_body w prompt apiKey modelName with
  | inr (Some r) => Return r
  | inr None => Continue
  | inl err => catch err
  end.

Definition generate (w : World) (prompt apiKey : string)
    : list string * Throws GenerationResult :=
  for_models (attempt w prompt apiKey) "All Groq models failed" modelsToTry.

End Groq.

Module Gemini.

Definition modelsToTry : list string :=
  [ "gemini-2.0-flash-exp"; "gemini-1.5-flash-latest"; "gemini-1.5-pro-latest";
    "gemini-1.5-flash"; "gemini-1.5-pro"; "gemini-pro" ].

Definition try_body (w : World) (prompt apiKey modelName : string)
    : Throws (option GenerationResult) :=
  t <- gemini_generateContent w apiKey modelName prompt ;;
  return_if_text (JStr t) modelName "gemini".

(** [catch (err) { continue; }] *)
Definition catch (err : JsError) : Step := Continue.

Definition attempt (w : World) (prompt apiKey modelName : string) : Step :=
  match try_body w prompt apiKey modelName with
  | inr (Some r) => Return r
  | inr None => Continue
  | inl err => catch err
  end.

Definition generate (w : World) (prompt apiKey : string)
    : list string * Throws GenerationResult :=
  for_models (attempt w prompt apiKey) "All Gemini models failed" modelsToTry.

End Gemini.

Module OpenAI.

Definition modelsToTry : list string :=
  [ "gpt-4"; "gpt-3.5-turbo"; "gpt-4-turbo-preview" ].

(** The [if (!response.ok)] branch: [continue] ([None]) or a [throw]. *)
Definition not_ok (response : HttpResponse) : Throws (option GenerationResult) :=
  error <- json response ;;
  detail <- Js.get error "error" ;;
  if Js.is_string (Js.get_opt detail "code") "model_not_found"
     || (status response =? 404)
  then inr None
  else inl (new_Error
         (Js.ToString (Js.or (Js.get_opt detail "message") (JStr "OpenAI API error")))).

Definition try_body (w : World) (prompt apiKey modelName : string)
    : Throws (option GenerationResult) :=
  response <- openai_fetch w apiKey modelName prompt ;;
  if negb (ok response) then not_ok response
  else
    data <- json response ;;
    textv <- first_choice_content data ;;
    return_if_text textv modelName "openai".

(** The [catch]: [err.message.includes] is not guarded, so a thrown value
    without a message raises a [TypeError] of its own. *)
Definition catch (err : JsError) : Step :=
  match message err with
  | None =>
      Throw (TypeError "Cannot read properties of undefined (reading 'includes')")
  | Some m =>
      if negb (JsString.includes m "model_not_found")
         && negb (JsString.includes m "404")
      then Throw err
      else Continue
  end.

Definition attempt (w : World) (prompt apiKey modelName : string) : Step :=
  match try_body w prompt apiKey modelName with
  | inr (Some r) => Return r
  | inr None => Continue
  | inl err => catch err
  end.

Definition generate (w : World) (prompt apiKey : string)
    : list string * Throws GenerationResult :=
  for_models (attempt w prompt apiKey) "All OpenAI models failed" modelsToTry.

End OpenAI.

Module Claude.

Definition modelName : string := "claude-3-haiku-20240307".

Definition body (w : World) (prompt apiKey : string) : Throws GenerationResult :=
  response <- claude_fetch w apiKey prompt ;;
  if negb (ok response) then
    error <- json response ;;
    detail <- Js.get error "error" ;;
    inl (new_Error
      (Js.ToString (Js.or (Js.get_opt detail "message") (JStr "Claude API error"))))
  else
    data <- json response ;;
    content <- Js.get data "content" ;;
    block <- Js.first content ;;
    let textv := Js.get_opt block "text" in
    if negb (Js.truthy textv) then inl (new_Error "No response from Claude")
    else
      t <- Js.call_trim "text" textv ;;
      inr (mkResult t modelName "claude").

(** One outbound call, whatever comes of it. *)
Definition generate (w : World) (prompt apiKey : string)
    : list string * Throws GenerationResult :=
  ([modelName], body w prompt apiKey).

End Claude.

(** The registry [aiProviders], looked up by name. *)
Definition Adapter : Type :=
  World -> string -> string -> list string * Throws GenerationResult.

Definition aiProviders (name : string) : option Adapter :=
  if String.eqb name "groq" then Some Groq.generate
  else if String.eqb name "gemini" then Some Gemini.generate
  else if String.eqb name "openai" then Some OpenAI.generate
  else if String.eqb name "claude" then Some Claude.generate
  else None.

(** ** Routing dispatcher: the handler of [POST /generate] *)

(** One adapter invocation: the vendor, the credential it was given and the
    models it made an outbound call for. *)
Record Invocation : Type := mkInvocation {
  inv_provider : string;
  inv_apiKey : string;
  inv_calls : list string
}.

(** [res.status(code).json(payload)] *)
Record Reply : Type := mkReply {
  reply_status : nat;
  reply_json : JsVal
}.

(** [a || b] on two variables of [process.env] *)
Definition env_or (a b : option string) : option string :=
  match a with
  | Some s => if JsString.truthy s then a else b
  | None => b
  end.

(** The [switch]: the credential read for a provider name ([Some None] when
    the variable is unset), or [None] for the [default: continue]. *)
Definition apiKey_for (env : gmap string string) (providerName : string)
    : option (option string) :=
  if String.eqb providerName "groq" then Some (env !! "GROQ_API_KEY")
  else if String.eqb providerName "openai" then Some (env !! "OPENAI_API_KEY")
  else if String.eqb providerName "gemini" then
    Some (env_or (env !! "GEMINI_API_KEY") (env !! "BARD_API_KEY"))
  else if String.eqb providerName "claude" then
    Some (env_or (env !! "ANTHROPIC_API_KEY") (env !! "CLAUDE_API_KEY"))
  else None.

(** The credential an adapter is called with: [apiKey_for] followed by
    [if (!apiKey) continue]. *)
Definition credential (env : gmap string string) (providerName : string)
    : option string :=
  match apiKey_for env providerName with
  | Some (Some key) => if JsString.truthy key then Some key else None
  | _ => None
  end.

(** What the candidate loop leaves behind: [result] and [lastError]
    ([None] for [null] and [undefined]). *)
Record LoopState : Type := mkLoop {
  result : option GenerationResult;
  lastError : option string
}.

(** [for (const providerName of providersToTry) { try ... catch ... }],
    started with a given [lastError]. *)
Fixpoint try_providers (env : gmap string string) (w : World) (prompt : string)
    (providersToTry : list string) (last : option string)
    : list Invocation * LoopState :=
  match providersToTry with
  | [] => ([], mkLoop None last)
  | providerName :: rest =>
      match credential env providerName with
      | None => try_providers env w prompt rest last
      | Some apiKey =>
          match aiProviders providerName with
          | None => try_providers env w prompt rest last
          | Some adapter =>
              let '(calls, res) := adapter w prompt apiKey in
              let inv := mkInvocation providerName apiKey calls in
              match res with
              | inr r => ([inv], mkLoop (Some r) last)
              | inl providerErr =>
                  let '(invs, st) :=
                    try_providers env w prompt rest (message providerErr) in
                  (inv :: invs, st)
              end
          end
      end
  end.

Definition auto_chain : list string := [ "groq"; "openai"; "gemini"; "claude" ].

(** [const { prompt, provider = 'auto' } = req.body] *)
Definition destructure (body : JsVal) : Throws (JsVal * JsVal) :=
  match body with
  | JUndefined =>
      inl (TypeError
             "Cannot destructure property 'prompt' of 'req.body' as it is undefined.")
  | JNull =>
      inl (TypeError
             "Cannot destructure property 'prompt' of 'req.body' as it is null.")
  | JObj fields =>
      let provider := Js.own fields "provider" in
      inr (Js.own fields "prompt",
           match provider with JUndefined => JStr "auto" | _ => provider end)
  | _ => inr (JUndefined, JStr "auto")
  end.

(** [prompt.substring(0, 100)] for the log line: only a string has the
    method. *)
Definition as_prompt (prompt : JsVal) : Throws string :=
  match prompt with
  | JStr s => inr s
  | _ => inl (TypeError "prompt.substring is not a function")
  end.

(** The candidate list. *)
Definition providersToTry (provider : JsVal) : Throws (list string) :=
  if Js.is_string provider "auto" || negb (Js.truthy provider)
  then inr auto_chain
  else
    match provider with
    | JStr s => inr [JsString.toLowerCase s]
    | _ => inl (TypeError "provider.toLowerCase is not a function")
    end.

Definition missing_prompt : Reply :=
  mkReply 400 (JObj [("error", JStr "Missing prompt in request body")]).

Definition exhausted_message (last : option string) : string :=
  "Failed to generate content. Error: "
  +:+ match last with
      | Some m => if JsString.truthy m then m else "All providers failed"
      | None => "All providers failed"
      end
  +:+ ". Please ensure at least one AI API key is configured in your .env file (GROQ_API_KEY, OPENAI_API_KEY, GEMINI_API_KEY, or ANTHROPIC_API_KEY).".

Definition all_failed (last : option string) : Reply :=
  mkReply 500 (JObj [("error", JStr (exhausted_message last))]).

Definition success (r : GenerationResult) : Reply :=
  mkReply 200
    (JObj [ ("candidates",
             JArr [ JObj [ ("content",
                            JObj [ ("parts",
                                    JArr [ JObj [ ("text", JStr (text r)) ] ]) ]) ] ]);
            ("provider", JStr (provider r));
            ("model", JStr (model r)) ]).

(** The outermost [catch]. *)
Definition unexpected (err : JsError) : Reply :=
  mkReply 500
    (JObj [("error",
            JStr match message err with
                 | Some m => if JsString.truthy m then m else "AI proxy error"
                 | None => "AI proxy error"
                 end)]).

(** The body of the outermost [try]. *)
Definition generate_body (env : gmap string string) (w : World) (body : JsVal)
    : Throws (list Invocation * Reply) :=
  fields <- destructure body ;;
  let '(prompt, provider) := fields in
  if negb (Js.truthy prompt) then inr ([], missing_prompt)
  else
    prompt_text <- as_prompt prompt ;;
    candidates <- providersToTry provider ;;
    let '(invs, st) := try_providers env w prompt_text candidates None in
    match result st with
    | None => inr (invs, all_failed (lastError st))
    | Some r => inr (invs, success r)
    end.

(** The handler: the adapters it invoked, and its reply.  Whatever is
    thrown in the body happens before any adapter is called. *)
Definition generate (env : gmap string string) (w : World) (body : JsVal)
    : list Invocation * Reply :=
  match generate_body env w body with
  | inr out => out
  | inl err => ([], unexpected err)
  end.

(** Outbound calls of a dispatch, in order. *)
Definition outbound (invs : list Invocation) : list (string * string) :=
  flat_map (fun inv => map (fun m => (inv_provider inv, m)) (inv_calls inv)) invs.

(** ** The client-side caller [generatePostWithGemini] *)

Module Client.

(** What the client's [fetch] resolves to. *)
Record Response : Type := mkResponse {
  status : nat;
  statusText : string;
  (** the outcome of [response.text()] *)
  body_text : Throws string
}.

Definition ok (r : Response) : bool :=
  (200 <=? status r) && (status r <=? 299).

(** Where an outstanding call is suspended. *)
Inductive Suspended : Type :=
| AwaitFetch                       (* at [await fetch(url, ...)] *)
| AwaitText (response : Response). (* at [await response.text()] *)

(** Effects of the caller, in the order they happen. *)
Inductive Event : Type :=
| SetFlag                    (* [_inFlight = true] *)
| ClearFlag                  (* [_inFlight = false], in the [finally] *)
| Fetch (body : JsVal)       (* the request handed to [fetch] *)
| Resolves (t : string)      (* the call's promise is fulfilled *)
| Rejects (e : JsError).     (* the call's promise is rejected *)

Record State : Type := mkState {
  inFlight : bool;
  suspended : list Suspended;
  log : list Event
}.

Definition init : State := mkState false [] [].

(** What the environment can do: call the function, or settle the promise
    the [i]-th outstanding call is waiting for. *)
Inductive Action : Type :=
| Call (prompt provider : JsVal)
| FetchSettles (i : nat) (outcome : Throws Response)
| TextSettles (i : nat) (outcome : Throws string).

(** [provider = 'groq'] in the parameter list *)
Definition default_provider (provider : JsVal) : JsVal :=
  match provider with
  | JUndefined => JStr "groq"
  | _ => provider
  end.

(** The object given to [JSON.stringify]. *)
Definition request_body (prompt provider : JsVal) : JsVal :=
  JObj [ ("prompt", prompt); ("provider", provider) ].

(** [v?.[0]] *)
Definition first_opt (v : JsVal) : JsVal :=
  match v with
  | JArr items => hd JUndefined items
  | JObj fields => Js.own fields "0"
  | JStr (String c _) => JStr (String c EmptyString)
  | _ => JUndefined
  end.

Definition mkError_of (v : JsVal) : JsError := new_Error (Js.ToString v).

Section WithParser.

(** [JSON.parse] *)
Variable JSON_parse : string -> Throws JsVal.

(** The [if (!response.ok)] block: the message of the error it throws. *)
Definition failure_message (response : Response) (responseText : string) : JsVal :=
  let errorMessage := JStr "Failed to generate content" in
  let errorMessage :=
    match (errorData <- JSON_parse responseText ;;
           e <- Js.get errorData "error" ;;
           inr (Js.or e errorMessage)) with
    | inr m => m
    | inl _ =>
        Js.or (JStr responseText)
          (JStr ("HTTP " +:+ pretty (status response) +:+ ": " +:+ statusText response))
    end in
  if status response =? 404 then
    JStr "AI endpoint not found. Please check if the server is running and the route is correct."
  else if status response =? 500 then
    Js.or errorMessage (JStr "Server error. Please check server logs for details.")
  else errorMessage.

(** From [const responseText = await response.text()] to the [return]. *)
Definition finish (response : Response) (responseText : string) : Throws string :=
  if negb (ok response) then
    inl (mkError_of (failure_message response responseText))
  else
    match JSON_parse responseText with
    | inl _ => inl (new_Error "Invalid response from server")
    | inr res =>
        let candidate := first_opt (Js.get_opt res "candidates") in
        let part := first_opt (Js.get_opt (Js.get_opt candidate "content") "parts") in
        let textv := Js.get_opt part "text" in
        if negb (Js.truthy textv) then inl (new_Error "No text generated. Please try again.")
        else Js.call_trim "text" textv
    end.

(** The call leaves through [catch (error) { throw error }] or the
    [return], and in both cases through the [finally]. *)
Definition settle (st : State) (rest : list Suspended) (outcome : Throws string) : State :=
  mkState false rest
    (log st ++ [ ClearFlag;
                 match outcome with inr t => Resolves t | inl e => Rejects e end ]).

Definition please_wait : JsError :=
  new_Error "Please wait for the current AI request to finish.".

(** A call, run up to its first [await]. *)
Definition call (st : State) (prompt provider : JsVal) : State :=
  if inFlight st then
    mkState (inFlight st) (suspended st) (log st ++ [Rejects please_wait])
  else
    let st := mkState true (suspended st) (log st ++ [SetFlag]) in
    match prompt with
    | JStr _ =>
        mkState (inFlight st) (suspended st ++ [AwaitFetch])
          (log st ++ [Fetch (request_body prompt (default_provider provider))])
    | JUndefined =>
        settle st (suspended st)
          (inl (TypeError "Cannot read properties of undefined (reading 'substring')"))
    | JNull =>
        settle st (suspended st)
          (inl (TypeError "Cannot read properties of null (reading 'substring')"))
    | _ =>
        settle st (suspended st) (inl (TypeError "prompt.substring is not a function"))
    end.

(** [`${fetchError.message}`] *)
Definition shown (m : option string) : string :=
  match m with Some s => s | None => "undefined" end.

(** The call resumed when [fetch] settles. *)
Definition resume_fetch (st : State) (i : nat) (outcome : Throws Response) : State :=
  match suspended st !! i with
  | Some AwaitFetch =>
      match outcome with
      | inl fetchError =>
          settle st (delete i (suspended st))
            (inl (new_Error ("Network error: " +:+ shown (message fetchError)
               +:+ ". Please check if the server is running on http://localhost:5000")))
      | inr response =>
          mkState (inFlight st) (<[i := AwaitText response]> (suspended st)) (log st)
      end
  | _ => st
  end.

(** The call resumed when [response.text()] settles. *)
Definition resume_text (st : State) (i : nat) (outcome : Throws string) : State :=
  match suspended st !! i with
  | Some (AwaitText response) =>
      settle st (delete i (suspended st))
        (responseText <- outcome ;; finish response responseText)
  | _ => st
  end.

Definition step (st : State) (a : Action) : State :=
  match a with
  | Call prompt provider => call st prompt provider
  | FetchSettles i outcome => resume_fetch st i outcome
  | TextSettles i outcome => resume_text st i outcome
  end.

(** The state after a sequence of actions, from the initial one. *)
Definition run (actions : list Action) : State := foldl step init actions.

End WithParser.

End Client.

(** ** The route [POST /test] of the AI router *)

Module TestRoute.

(** The prompt ['Say "Hello, Gemini is working!"'] *)
Definition test_prompt : string :=
  "Say " +:+ String (ascii_of_nat 34)
    ("Hello, Gemini is working!" +:+ String (ascii_of_nat 34) EmptyString).

(** [!!process.env.NAME] *)
Definition is_set (v : option string) : bool :=
  match v with
  | Some s => JsString.truthy s
  | None => false
  end.

Definition key_missing (env : gmap string string) : Reply :=
  mkReply 500
    (JObj [ ("error", JStr "GEMINI_API_KEY not found in environment variables");
            ("envCheck",
             JObj [ ("GEMINI_API_KEY", JBool (is_set (env !! "GEMINI_API_KEY")));
                    ("BARD_API_KEY", JBool (is_set (env !! "BARD_API_KEY"))) ]) ]).

(** [res.json(...)] without [res.status]: status 200. *)
Definition working (apiKey response : string) : Reply :=
  mkReply 200
    (JObj [ ("success", JBool true);
            ("message", JStr "Gemini API is working!");
            ("response", JStr response);
            ("apiKeyLength", JNum (Z.of_nat (String.length apiKey))) ]).

Section WithToString.

(** [error.toString()], which depends on the class of the error. *)
Variable error_toString : JsError -> string.

Definition test_failed (error : JsError) : Reply :=
  mkReply 500
    (JObj [ ("error", JStr "Gemini API test failed");
            ("message",
             match message error with Some m => JStr m | None => JUndefined end);
            ("details", JStr (error_toString error)) ]).

(** The handler: the calls it made to Gemini, as pairs of credential and
    model, and its reply. *)
Definition handler (env : gmap string string) (w : World)
    : list (string * string) * Reply :=
  match env_or (env !! "GEMINI_API_KEY") (env !! "BARD_API_KEY") with
  | Some apiKey =>
      if JsString.truthy apiKey then
        ([(apiKey, "gemini-pro")],
         match gemini_generateContent w apiKey "gemini-pro" test_prompt with
         | inr response => working apiKey response
         | inl error => test_failed error
         end)
      else ([], key_missing env)
  | None => ([], key_missing env)
  end.

End WithToString.

End TestRoute.

(** ** The CORS middleware of the server *)

Module Cors.

(** How the middleware ends: [next()] or [res.sendStatus(code)]. *)
Inductive Outcome : Type :=
| Next
| SendStatus (code : nat).

Definition default_origin : string := "http://localhost:3000".

(** The value given to [Access-Control-Allow-Origin]. *)
Definition allow_origin (origin : option string) : string :=
  match origin with
  | Some o =>
      if JsString.truthy o
         && (JsString.includes o "localhost" || JsString.includes o "127.0.0.1")
      then o
      else default_origin
  | None => default_origin
  end.

(** [res.header(name, value)]: a response has one value per header name,
    whatever the case of the name; the map is keyed by lower-cased names. *)
Definition set_header (name value : string) (headers : gmap string string)
    : gmap string string :=
  <[JsString.toLowerCase name := value]> headers.

(** The value of a header of the response, by a name in any case. *)
Definition get_header (name : string) (headers : gmap string string) : option string :=
  headers !! JsString.toLowerCase name.

(** The middleware, on the [Origin] header and the method of the request
    and the headers of the response so far.  The map it returns holds the
    headers as the middleware leaves them when it calls [next()] or
    [res.sendStatus(200)]; what [res.sendStatus] sets on its own is not
    part of it. *)
Definition middleware (origin : option string) (method : string)
    (headers : gmap string string) : gmap string string * Outcome :=
  let headers := set_header "Access-Control-Allow-Origin" (allow_origin origin) headers in
  let headers :=
    set_header "Access-Control-Allow-Headers"
      "Origin, X-Requested-With, Content-Type, Accept, Authorization" headers in
  let headers :=
    set_header "Access-Control-Allow-Methods"
      "GET, POST, PUT, PATCH, DELETE, OPTIONS" headers in
  let headers := set_header "Access-Control-Allow-Credentials" "true" headers in
  (headers, if String.eqb method "OPTIONS" then SendStatus 200 else Next).

End Cors.

(** * Vocabulary of the properties *)

(** The adapters that walk a list of candidate models (the Claude adapter
    has a single fixed model). *)
Inductive Vendor : Type := VGroq | VGemini | VOpenAI.

Definition vendor_name (v : Vendor) : string :=
  match v with VGroq => "groq" | VGemini => "gemini" | VOpenAI => "openai" end.

Definition vendor_models (v : Vendor) : list string :=
  match v with
  | VGroq => Groq.modelsToTry
  | VGemini => Gemini.modelsToTry
  | VOpenAI => OpenAI.modelsToTry
  end.

Definition vendor_try (v : Vendor)
    : World -> string -> string -> string -> Throws (option GenerationResult) :=
  match v with
  | VGroq => Groq.try_body
  | VGemini => Gemini.try_body
  | VOpenAI => OpenAI.try_body
  end.

Definition vendor_attempt (v : Vendor) : World -> string -> string -> string -> Step :=
  match v with
  | VGroq => Groq.attempt
  | VGemini => Gemini.attempt
  | VOpenAI => OpenAI.attempt
  end.

Definition vendor_generate (v : Vendor) : Adapter :=
  match v with
  | VGroq => Groq.generate
  | VGemini => Gemini.generate
  | VOpenAI => OpenAI.generate
  end.

(** The message of the error an adapter raises when its list is used up. *)
Definition vendor_exhausted (v : Vendor) : string :=
  match v with
  | VGroq => "All Groq models failed"
  | VGemini => "All Gemini models failed"
  | VOpenAI => "All OpenAI models failed"
  end.

(** An error message that signals an unavailable model: it contains
    "model" or "404". *)
Definition signals_unavailable (e : JsError) : bool :=
  message_includes e "model" || message_includes e "404".

(** A model attempt that fails with a model-not-found-shaped error, in the
    specification's words: a 404 status, the error code [model_not_found],
    or an error whose message contains "model" or "404". *)
Definition model_unavailable (v : Vendor) (w : World) (prompt key m : string) : Prop :=
  (exists e, vendor_try v w prompt key m = inl e /\ signals_unavailable e = true)
  \/ (v = VOpenAI /\
      exists r, openai_fetch w key m prompt = inr r /\ ok r = false /\
        (status r = 404 \/
         exists body detail,
           json r = inr body /\ Js.get body "error" = inr detail /\
           Js.is_string (Js.get_opt detail "code") "model_not_found" = true)).

(** A failed model attempt after which the adapter itself goes on to its
    next model. *)
Definition recoverable (v : Vendor) (w : World) (prompt key m : string) : Prop :=
  match v with
  | VGroq =>
      exists e, Groq.try_body w prompt key m = inl e /\ signals_unavailable e = true
  | VGemini =>
      exists e, Gemini.try_body w prompt key m = inl e
  | VOpenAI =>
      (exists r body detail,
          openai_fetch w key m prompt = inr r /\ ok r = false /\
          json r = inr body /\ Js.get body "error" = inr detail /\
          (Js.is_string (Js.get_opt detail "code") "model_not_found" = true
           \/ status r = 404))
      \/ (exists e msg,
            OpenAI.try_body w prompt key m = inl e /\ message e = Some msg /\
            (JsString.includes msg "model_not_found" = true
             \/ JsString.includes msg "404" = true))
  end.

(** The vendor answers the attempt for model [m] with the text [t]. *)
Definition yields (v : Vendor) (w : World) (prompt key m t : string) : Prop :=
  match v with
  | VGroq =>
      exists chat,
        groq_create w key m prompt = inr chat /\
        first_choice_content chat = inr (JStr t)
  | VGemini => gemini_generateContent w key m prompt = inr t
  | VOpenAI =>
      exists r data,
        openai_fetch w key m prompt = inr r /\ ok r = true /\
        json r = inr data /\ first_choice_content data = inr (JStr t)
  end.



(** A credential resolves for the provider name. *)
Definition keyed (env : gmap string string) (n : string) : bool :=
  match credential env n with Some _ => true | None => false end.

(** The run of the adapter an invocation names, on the credential it
    records. *)
Definition adapter_run (w : World) (prompt : string) (inv : Invocation)
    : option (list string * Throws GenerationResult) :=
  match aiProviders (inv_provider inv) with
  | Some adapter => Some (adapter w prompt (inv_apiKey inv))
  | None => None
  end.

(** The invocation raised an error. *)
Definition failed (w : World) (prompt : string) (inv : Invocation) : Prop :=
  exists e, adapter_run w prompt inv = Some (inv_calls inv, inl e).

(** The first of some configured values that is set and not empty. *)
Fixpoint first_non_empty (sources : list (option string)) : option string :=
  match sources with
  | [] => None
  | Some s :: rest => if JsString.truthy s then Some s else first_non_empty rest
  | None :: rest => first_non_empty rest
  end.

(** The candidate loop as a relation: from a candidate list and the
    [lastError] so far, to the invocations made and the state left. *)
Inductive dispatch (env : gmap string string) (w : World) (prompt : string)
    : list string -> option string -> list Invocation -> LoopState -> Prop :=
| dispatch_done last :
    dispatch env w prompt [] last [] (mkLoop None last)
| dispatch_skip n rest last invs st :
    credential env n = None ->
    dispatch env w prompt rest last invs st ->
    dispatch env w prompt (n :: rest) last invs st
| dispatch_fail n rest last key adapter calls e invs st :
    credential env n = Some key ->
    aiProviders n = Some adapter ->
    adapter w prompt key = (calls, inl e) ->
    dispatch env w prompt rest (message e) invs st ->
    dispatch env w prompt (n :: rest) last (mkInvocation n key calls :: invs) st
| dispatch_stop n rest last key adapter calls r :
    credential env n = Some key ->
    aiProviders n = Some adapter ->
    adapter w prompt key = (calls, inr r) ->
    dispatch env w prompt (n :: rest) last [mkInvocation n key calls]
      (mkLoop (Some r) last).

(** The provider preference of a request body, after the default of the
    destructuring. *)
Definition preference (fields : list (string * JsVal)) : JsVal :=
  let provider := Js.own fields "provider" in
  match provider with
  | JUndefined => JStr "auto"
  | _ => provider
  end.

(** The reply that follows the candidate loop. *)
Definition loop_reply (st : LoopState) : Reply :=
  match result st with
  | None => all_failed (lastError st)
  | Some r => success r
  end.

(** The candidate gets no result: it has no credential (or is not a
    provider the switch knows), or its adapter raises an error. *)
Definition no_success (env : gmap string string) (w : World) (prompt n : string) : Prop :=
  credential env n = None \/
  exists key adapter calls e,
    credential env n = Some key /\ aiProviders n = Some adapter /\
    adapter w prompt key = (calls, inl e).

(** The credential variables the exhaustion message names. *)
Definition credential_names : list string :=
  [ "GROQ_API_KEY"; "OPENAI_API_KEY"; "GEMINI_API_KEY"; "ANTHROPIC_API_KEY" ].

(** The exhaustion message around a description of the failure. *)
Definition exhaustion_text (detail : string) : string :=
  "Failed to generate content. Error: " +:+ detail +:+
  ". Please ensure at least one AI API key is configured in your .env file (GROQ_API_KEY, OPENAI_API_KEY, GEMINI_API_KEY, or ANTHROPIC_API_KEY).".

(** The flag is set exactly while one call is outstanding. *)
Definition single_flight (st : Client.State) : Prop :=
  (Client.inFlight st = false /\ Client.suspended st = []) \/
  (Client.inFlight st = true /\ exists s, Client.suspended st = [s]).

(** The client's request for a prompt when no provider is passed. *)
Definition default_request (p : string) : list (string * JsVal) :=
  [ ("prompt", JStr p); ("provider", JStr "groq") ].

(** A [JSON.parse] that accepts nothing, for examples. *)
Definition no_parse (s : string) : Throws JsVal :=
  inl (new_Error "Unexpected end of JSON input").

(** A [JSON.parse] that reads every text as the dispatcher's 200 reply for
    the text "Hello!", for examples. *)
Definition parse_hello (s : string) : Throws JsVal :=
  inr (reply_json (success (mkResult "Hello!" "llama-3.1-70b-versatile" "groq"))).

(** The vendor answers the attempt for model [m] with a text that is empty
    or blank. *)
Definition blank_answer (v : Vendor) (w : World) (prompt key m : string) : Prop :=
  exists t, yields v w prompt key m t /\ JsString.trim t = EmptyString.

(** The adapter goes on to its next model: a failure it treats as
    recoverable, or a blank answer. *)
Definition passed_over (v : Vendor) (w : World) (prompt key m : string) : Prop :=
  recoverable v w prompt key m \/ blank_answer v w prompt key m.

(** The number of models in the list of a provider's adapter. *)
Definition max_calls (n : string) : nat :=
  if String.eqb n "groq" then length Groq.modelsToTry
  else if String.eqb n "gemini" then length Gemini.modelsToTry
  else if String.eqb n "openai" then length OpenAI.modelsToTry
  else if String.eqb n "claude" then 1
  else 0.

Definition calls_budget (candidates : list string) : nat :=
  sum_list (max_calls <$> candidates).

(** What the exhaustion message says about the failure, read off the
    invocations of the dispatch: the message of the error of the last one,
    when there is one and it is not empty. *)
Definition last_detail (w : World) (prompt : string) (invs : list Invocation) : string :=
  match last invs with
  | Some inv =>
      match adapter_run w prompt inv with
      | Some (_, inl e) =>
          match message e with
          | Some m => if JsString.truthy m then m else "All providers failed"
          | None => "All providers failed"
          end
      | _ => "All providers failed"
      end
  | None => "All providers failed"
  end.

(** The flag as a log of the client tells it: set only when clear, cleared
    only when set, and a request sent only while it is set.  [None] when
    the log breaks one of these. *)
Fixpoint flag_after (flag : bool) (events : list Client.Event) : option bool :=
  match events with
  | [] => Some flag
  | Client.SetFlag :: rest => if flag then None else flag_after true rest
  | Client.ClearFlag :: rest => if flag then flag_after false rest else None
  | Client.Fetch _ :: rest => if flag then flag_after flag rest else None
  | _ :: rest => flag_after flag rest
  end.

(** The response the client sees when the server's reply arrives, with
    [body] as the text of its JSON. *)
Definition delivered (reply : Reply) (statusText body : string) : Client.Response :=
  Client.mkResponse (reply_status reply) statusText (inr body).

(** ** A sample world *)

Definition chat_completion (content : string) : JsVal :=
  JObj [ ("choices", JArr [ JObj [ ("message", JObj [ ("content", JStr content) ]) ] ]) ].

Definition error_body (msg : string) (code : JsVal) : JsVal :=
  JObj [ ("error", JObj [ ("message", JStr msg); ("code", code) ]) ].

(** Groq has withdrawn its first model and rejects the key "expired";
    Gemini's first model blocks its answer; OpenAI's gpt-4 is overloaded
    (a 503 with no error code); Claude answers with blanks. *)
Definition sample_world : World :=
  mkWorld
    (fun key m _ =>
       if String.eqb key "expired" then inl (new_Error "Invalid API Key")
       else if String.eqb m "llama-3.1-8b-instant"
       then inl (new_Error "The model `llama-3.1-8b-instant` has been decommissioned")
       else inr (chat_completion " Hello! "))
    (fun _ m _ =>
       if String.eqb m "gemini-2.0-flash-exp"
       then inl (new_Error "[GoogleGenerativeAI Error]: Candidate was blocked due to SAFETY")
       else inr "Hello from Gemini")
    (fun _ m _ =>
       if String.eqb m "gpt-4"
       then inr (mkResponse 503
                   (inr (error_body "That model is currently overloaded with other requests."
                                    JNull)))
       else inr (mkResponse 200 (inr (chat_completion "Hello from OpenAI"))))
    (fun _ _ =>
       inr (mkResponse 200
              (inr (JObj [ ("content", JArr [ JObj [ ("text", JStr "   ") ] ]) ])))).

(** * Properties *)

(** ** Strings *)

Section StringFacts.

Import JsString.

Lemma trimStart_fixed c s :
  is_white_space c = false -> trimStart (String c s) = String c s.
Proof. intros H; simpl; now rewrite H. Qed.

Lemma trimStart_head s :
  match trimStart s with
  | EmptyString => True
  | String c _ => is_white_space c = false
  end.
Proof.
  induction s as [|c s IH]; simpl; [exact I|].
  destruct (is_white_space c) eqn:E; [exact IH | exact E].
Qed.

Lemma trimEnd_head c s :
  is_white_space c = false ->
  exists s', trimEnd (String c s) = String c s'.
Proof.
  intros H; simpl. destruct (trimEnd s); rewrite ?H; eauto.
Qed.

Lemma trimEnd_cons c s :
  trimEnd (String c s) =
  match trimEnd s with
  | EmptyString => if is_white_space c then EmptyString else String c EmptyString
  | String d t => String c (String d t)
  end.
Proof. reflexivity. Qed.

Lemma trimEnd_idemp s : trimEnd (trimEnd s) = trimEnd s.
Proof.
  induction s as [|c s IH]; [reflexivity|].
  rewrite trimEnd_cons.
  destruct (trimEnd s) as [|d t] eqn:E.
  - destruct (is_white_space c) eqn:Ec; [reflexivity|].
    rewrite trimEnd_cons; simpl; now rewrite Ec.
  - rewrite trimEnd_cons, IH. reflexivity.
Qed.

(** [trim] leaves a trimmed string alone. *)
Lemma trim_idemp s : trim (trim s) = trim s.
Proof.
  unfold trim. pose proof (trimStart_head s) as H.
  destruct (trimStart s) as [|c t] eqn:E; [reflexivity|].
  destruct (trimEnd_head c t H) as [t' Ht'].
  rewrite Ht', (trimStart_fixed _ _ H), <- Ht'. apply trimEnd_idemp.
Qed.

Lemma truthy_ne s : truthy s = true <-> s <> EmptyString.
Proof. destruct s; simpl; split; congruence. Qed.

Lemma startsWith_app s t : startsWith (s +:+ t) s = true.
Proof.
  induction s as [|c s IH]; simpl; [reflexivity|].
  now rewrite Ascii.eqb_refl.
Qed.



Lemma includes_unfold s n :
  includes s n =
  startsWith s n || match s with EmptyString => false | String _ s' => includes s' n end.
Proof. destruct s; reflexivity. Qed.

Lemma includes_here s t : includes (s +:+ t) s = true.
Proof. rewrite includes_unfold, startsWith_app. reflexivity. Qed.

Lemma includes_app_r s1 s2 n :
  includes s2 n = true -> includes (s1 +:+ s2) n = true.
Proof.
  intros H; induction s1 as [|c s1 IH]; simpl; [exact H|].
  rewrite IH. apply orb_true_r.
Qed.

End StringFacts.

(** ** Model loops *)

Section ModelLoop.

Variable attempt : string -> Step.
Variable exhausted : string.

Lemma for_models_skip pre l :
  (forall x, In x pre -> attempt x = Continue) ->
  for_models attempt exhausted (pre ++ l) =
  (pre ++ fst (for_models attempt exhausted l),
   snd (for_models attempt exhausted l)).
Proof.
  induction pre as [|x pre IH]; intros H; simpl.
  - now destruct (for_models attempt exhausted l).
  - rewrite (H x (or_introl eq_refl)), IH by (intros y Hy; apply H; now right).
    reflexivity.
Qed.

Lemma for_models_return pre m post r :
  (forall x, In x pre -> attempt x = Continue) ->
  attempt m = Return r ->
  for_models attempt exhausted (pre ++ m :: post) = (pre ++ [m], inr r).
Proof.
  intros Hpre Hm. rewrite for_models_skip by exact Hpre.
  simpl. now rewrite Hm.
Qed.

(** A model whose attempt throws was the last one called, and its error is
    the adapter's. *)
Lemma for_models_throw l m e :
  In m (fst (for_models attempt exhausted l)) ->
  attempt m = Throw e ->
  exists pre, for_models attempt exhausted l = (pre ++ [m], inl e).
Proof.
  induction l as [|x l IH]; simpl; [tauto|].
  destruct (attempt x) eqn:Ex; simpl.
  - intros [<-|[]] Hm. congruence.
  - destruct (for_models attempt exhausted l) as [calls res] eqn:El; simpl in *.
    intros [<-|Hin] Hm; [congruence|].
    destruct (IH Hin Hm) as [pre Hpre]. exists (x :: pre).
    injection Hpre as -> ->. reflexivity.
  - intros [<-|[]] Hm. exists []. simpl. congruence.
Qed.

(** Only listed models are called, in the order of the list. *)
Lemma for_models_calls_prefix l :
  fst (for_models attempt exhausted l) `prefix_of` l.
Proof.
  induction l as [|x l IH]; simpl; [reflexivity|].
  destruct (attempt x); simpl; try (apply prefix_cons, prefix_nil).
  destruct (for_models attempt exhausted l); simpl in *.
  now apply prefix_cons.
Qed.

(** A result comes from the last model called, and carries what the
    attempt returned. *)
Lemma for_models_result l calls r :
  for_models attempt exhausted l = (calls, inr r) ->
  exists pre m, calls = pre ++ [m] /\ attempt m = Return r.
Proof.
  revert calls; induction l as [|x l IH]; intros calls; simpl; [congruence|].
  destruct (attempt x) eqn:Ex.
  - intros [= <- <-]. exists [], x. auto.
  - destruct (for_models attempt exhausted l) as [calls' res] eqn:El.
    intros [= <- ->]. destruct (IH _ eq_refl) as (pre & m & -> & Hm).
    exists (x :: pre), m. auto.
  - congruence.
Qed.


End ModelLoop.

(** ** Provider adapters *)

Lemma vendor_generate_loop v w prompt key :
  vendor_generate v w prompt key =
  for_models (vendor_attempt v w prompt key) (vendor_exhausted v) (vendor_models v).
Proof. destruct v; reflexivity. Qed.

Lemma vendor_attempt_try v w prompt key m :
  vendor_attempt v w prompt key m =
  match vendor_try v w prompt key m with
  | inr (Some r) => Return r
  | inr None => Continue
  | inl err =>
      match v with
      | VGroq => Groq.catch err
      | VGemini => Gemini.catch err
      | VOpenAI => OpenAI.catch err
      end
  end.
Proof. destruct v; reflexivity. Qed.

Lemma return_if_text_trimmed t m n :
  JsString.trim t <> EmptyString ->
  return_if_text (JStr t) m n = inr (Some (mkResult (JsString.trim t) m n)).
Proof.
  intros Ht. unfold return_if_text; simpl.
  destruct t as [|c t]; [now destruct Ht|]; simpl JsString.truthy; cbv iota.
  simpl bindT. apply truthy_ne in Ht. now rewrite Ht.
Qed.



Lemma recoverable_continue v w prompt key m :
  recoverable v w prompt key m -> vendor_attempt v w prompt key m = Continue.
Proof.
  destruct v; simpl.
  - intros (e & He & Hs). unfold Groq.attempt, Groq.catch.
    unfold signals_unavailable in Hs. now rewrite He, Hs.
  - intros (e & He). unfold Gemini.attempt. now rewrite He.
  - unfold OpenAI.attempt.
    intros [(r & body & detail & Hf & Hok & Hj & Hd & Hc) | (e & msg & He & Hm & Hc)].
    + unfold OpenAI.try_body, OpenAI.not_ok. rewrite Hf; simpl. rewrite Hok; simpl.
      rewrite Hj; simpl. rewrite Hd; simpl.
      destruct Hc as [-> | ->]; [reflexivity|].
      now rewrite orb_true_r.
    + rewrite He. unfold OpenAI.catch. rewrite Hm.
      destruct Hc as [-> | ->]; [reflexivity|].
      now rewrite andb_false_r.
Qed.

Lemma yields_return v w prompt key m t :
  yields v w prompt key m t -> JsString.trim t <> EmptyString ->
  vendor_attempt v w prompt key m = Return (mkResult (JsString.trim t) m (vendor_name v)).
Proof.
  destruct v; simpl.
  - intros (chat & Hc & Ht) Hne. unfold Groq.attempt, Groq.try_body.
    rewrite Hc; simpl. rewrite Ht; simpl. now rewrite return_if_text_trimmed.
  - intros Hg Hne. unfold Gemini.attempt, Gemini.try_body.
    rewrite Hg; simpl. now rewrite return_if_text_trimmed.
  - intros (r & data & Hf & Hok & Hj & Ht) Hne. unfold OpenAI.attempt, OpenAI.try_body.
    rewrite Hf; simpl. rewrite Hok; simpl. rewrite Hj; simpl. rewrite Ht; simpl.
    now rewrite return_if_text_trimmed.
Qed.




(** C6, as the specification states it, fails for the OpenAI adapter: a
    503 whose message mentions the model is model-not-found-shaped in the
    specification's sense, yet the adapter raises it instead of trying
    gpt-3.5-turbo, which would have answered. *)
Lemma openai_surfaces_model_error :
  ~ (forall w prompt key pre m post t,
        vendor_models VOpenAI = pre ++ m :: post ->
        (forall x, In x pre -> model_unavailable VOpenAI w prompt key x) ->
        yields VOpenAI w prompt key m t ->
        JsString.trim t <> EmptyString ->
        vendor_generate VOpenAI w prompt key =
        (pre ++ [m], inr (mkResult (JsString.trim t) m (vendor_name VOpenAI)))).
Proof.
  intros H.
  specialize (H sample_world "Write a post" "key" ["gpt-4"] "gpt-3.5-turbo"
                ["gpt-4-turbo-preview"] "Hello from OpenAI").
  assert (Hgen : vendor_generate VOpenAI sample_world "Write a post" "key" =
                 (["gpt-4"],
                  inl (new_Error "That model is currently overloaded with other requests.")))
    by (vm_compute; reflexivity).
  rewrite Hgen in H. discriminate H.
  - reflexivity.
  - intros x [<-|[]]. left.
    exists (new_Error "That model is currently overloaded with other requests.").
    split; vm_compute; reflexivity.
  - simpl. eexists _, _. repeat split; vm_compute; reflexivity.
  - vm_compute. discriminate.
Qed.

(** C6 (amended): for each adapter with a model list, if its first N
    attempts fail in a way the adapter itself treats as recoverable (Groq:
    an error whose message contains "model" or "404"; Gemini: any error;
    OpenAI: a non-2xx JSON error response with status 404 or code
    [model_not_found], or an error whose message contains "model_not_found"
    or "404") and the next model answers with text that is not blank, the
    adapter returns that model's trimmed text and name after exactly those
    N+1 calls, and none of the earlier failures reaches the caller. *)
Theorem fallback_returns_first_text v w prompt key pre m post t :
  vendor_models v = pre ++ m :: post ->
  (forall x, In x pre -> recoverable v w prompt key x) ->
  yields v w prompt key m t ->
  JsString.trim t <> EmptyString ->
  vendor_generate v w prompt key =
  (pre ++ [m], inr (mkResult (JsString.trim t) m (vendor_name v))).
Proof.
  intros Hmodels Hpre Hm Ht.
  rewrite vendor_generate_loop, Hmodels.
  apply for_models_return.
  - intros x Hx. now apply recoverable_continue, Hpre.
  - now apply yields_return.
Qed.

Lemma fallback_returns_first_text_witness :
  Groq.generate sample_world "Write a post" "key" =
  (["llama-3.1-8b-instant"; "llama-3.1-70b-versatile"],
   inr (mkResult "Hello!" "llama-3.1-70b-versatile" "groq")).
Proof.
  apply (fallback_returns_first_text VGroq sample_world "Write a post" "key"
           ["llama-3.1-8b-instant"] "llama-3.1-70b-versatile"
           ["llama-3-8b-8192"; "mixtral-8x7b-32768"] " Hello! ").
  - reflexivity.
  - intros x [<-|[]].
    exists (new_Error "The model `llama-3.1-8b-instant` has been decommissioned").
    split; reflexivity.
  - exists (chat_completion " Hello! "). split; reflexivity.
  - discriminate.
Defined.

(** The text of a result of Groq, Gemini or OpenAI is trimmed and not
    empty: these adapters return only under [text && text.trim()]. *)
Lemma return_if_text_inv v m n r :
  return_if_text v m n = inr (Some r) ->
  text r <> EmptyString /\ JsString.trim (text r) = text r /\ model r = m /\ provider r = n.
Proof.
  unfold return_if_text. destruct (Js.truthy v); [|discriminate].
  destruct v; simpl; try discriminate.
  destruct (JsString.truthy (JsString.trim s)) eqn:E; [|discriminate].
  intros [= <-]; simpl. apply truthy_ne in E. auto using trim_idemp.
Qed.

Lemma vendor_try_result v w prompt key m r :
  vendor_try v w prompt key m = inr (Some r) ->
  text r <> EmptyString /\ JsString.trim (text r) = text r /\
  model r = m /\ provider r = vendor_name v.
Proof.
  destruct v; simpl.
  - unfold Groq.try_body.
    destruct (groq_create w key m prompt); simpl; [discriminate|].
    destruct (first_choice_content j); simpl; [discriminate|].
    apply return_if_text_inv.
  - unfold Gemini.try_body.
    destruct (gemini_generateContent w key m prompt); simpl; [discriminate|].
    apply return_if_text_inv.
  - unfold OpenAI.try_body, OpenAI.not_ok.
    destruct (openai_fetch w key m prompt) as [|resp]; simpl; [discriminate|].
    destruct (ok resp); simpl.
    + destruct (json resp); simpl; [discriminate|].
      destruct (first_choice_content j); simpl; [discriminate|].
      apply return_if_text_inv.
    + destruct (json resp); simpl; [discriminate|].
      destruct (Js.get j "error"); simpl; [discriminate|].
      destruct (_ || _); discriminate.
Qed.

Lemma vendor_attempt_return v w prompt key m r :
  vendor_attempt v w prompt key m = Return r ->
  vendor_try v w prompt key m = inr (Some r).
Proof.
  rewrite vendor_attempt_try.
  destruct (vendor_try v w prompt key m) as [e|[r'|]]; try congruence.
  destruct v; simpl.
  - unfold Groq.catch. destruct (_ || _); discriminate.
  - discriminate.
  - unfold OpenAI.catch. destruct (message e); [destruct (_ && _)|]; discriminate.
Qed.

Lemma vendor_result_trimmed v w prompt key calls r :
  vendor_generate v w prompt key = (calls, inr r) ->
  text r <> EmptyString /\ JsString.trim (text r) = text r /\
  last calls = Some (model r) /\ provider r = vendor_name v.
Proof.
  rewrite vendor_generate_loop. intros H.
  apply for_models_result in H as (pre & m & -> & Hm).
  apply vendor_attempt_return, vendor_try_result in Hm as (? & ? & ? & ?).
  rewrite last_snoc. repeat split; congruence.
Qed.

(** The Claude adapter trims too, but tests the text before trimming. *)
Lemma claude_result w prompt key calls r :
  Claude.generate w prompt key = (calls, inr r) ->
  JsString.trim (text r) = text r /\
  last calls = Some (model r) /\ provider r = "claude".
Proof.
  unfold Claude.generate, Claude.body. intros [= <- H].
  destruct (claude_fetch w key prompt) as [|resp]; simpl in H; [discriminate|].
  destruct (ok resp); simpl in H.
  - destruct (json resp); simpl in H; [discriminate|].
    destruct (Js.get j "content"); simpl in H; [discriminate|].
    destruct (Js.first j0); simpl in H; [discriminate|].
    destruct (Js.truthy (Js.get_opt j1 "text")); simpl in H; [|discriminate].
    destruct (Js.get_opt j1 "text"); simpl in H; try discriminate.
    injection H as <-. simpl. auto using trim_idemp.
  - destruct (json resp); simpl in H; [discriminate|].
    destruct (Js.get j "error"); simpl in H; discriminate.
Qed.

(** C2 at its failing input: Claude answers 200 with a text of three
    blanks; the adapter returns a result whose text is empty, and the
    dispatcher replies 200 with it. *)
Theorem claude_returns_empty_text :
  Claude.generate sample_world "Write a post" "key" =
    ([Claude.modelName], inr (mkResult EmptyString Claude.modelName "claude")) /\
  generate {[ "ANTHROPIC_API_KEY" := "key" ]} sample_world
    (JObj [ ("prompt", JStr "Write a post"); ("provider", JStr "claude") ]) =
    ([mkInvocation "claude" "key" [Claude.modelName]],
     success (mkResult EmptyString Claude.modelName "claude")).
Proof. split; vm_compute; reflexivity. Qed.

(** ** The candidate loop *)

Lemma apiKey_for_names env n o :
  apiKey_for env n = Some o ->
  n = "groq" \/ n = "openai" \/ n = "gemini" \/ n = "claude".
Proof.
  unfold apiKey_for.
  destruct (String.eqb_spec n "groq"); [auto|].
  destruct (String.eqb_spec n "openai"); [auto|].
  destruct (String.eqb_spec n "gemini"); [auto|].
  destruct (String.eqb_spec n "claude"); [auto|discriminate].
Qed.

Lemma credential_Some env n key :
  credential env n = Some key ->
  key <> EmptyString /\ In n auto_chain /\ exists adapter, aiProviders n = Some adapter.
Proof.
  unfold credential.
  destruct (apiKey_for env n) as [[k|]|] eqn:E; try discriminate.
  destruct (JsString.truthy k) eqn:Ek; [|discriminate].
  intros [= <-]. apply truthy_ne in Ek. split; [exact Ek|].
  apply apiKey_for_names in E as [-> | [-> | [-> | ->]]];
    (split; [simpl; tauto | eexists; reflexivity]).
Qed.

(** The loop of the handler runs as the relation [dispatch] says. *)
Lemma try_providers_dispatch env w prompt candidates last :
  dispatch env w prompt candidates last
    (fst (try_providers env w prompt candidates last))
    (snd (try_providers env w prompt candidates last)).
Proof.
  revert last; induction candidates as [|n rest IH]; intros last; simpl.
  - constructor.
  - destruct (credential env n) as [key|] eqn:Ec.
    + destruct (credential_Some _ _ _ Ec) as (_ & _ & adapter & Ha). rewrite Ha.
      destruct (adapter w prompt key) as [calls [e|r]] eqn:Er.
      * specialize (IH (message e)).
        destruct (try_providers env w prompt rest (message e)) as [invs st].
        simpl in *. eapply dispatch_fail; eauto.
      * simpl. eapply dispatch_stop; eauto.
    + apply dispatch_skip; [exact Ec | apply IH].
Qed.

Section Dispatch.

Variable env : gmap string string.
Variable w : World.
Variable prompt : string.

(** Every invocation was made with the credential that resolves for its
    provider. *)
Lemma dispatch_credentials candidates last invs st :
  dispatch env w prompt candidates last invs st ->
  Forall (fun inv => credential env (inv_provider inv) = Some (inv_apiKey inv)) invs.
Proof. induction 1; auto. Qed.

(** The providers invoked are, in order, the first of the candidates that
    have a credential; all of them when no result is found. *)
Lemma dispatch_order candidates last invs st :
  dispatch env w prompt candidates last invs st ->
  exists rest,
    List.filter (keyed env) candidates = map inv_provider invs ++ rest /\
    (result st = None -> rest = []).
Proof.
  induction 1 as [last|n rest last invs st Hc _ (rest' & IH & IHn)
                  |n rest last key adapter calls e invs st Hc _ _ _ (rest' & IH & IHn)
                  |n rest last key adapter calls r Hc _ _]; simpl.
  - exists []. auto.
  - unfold keyed at 1. rewrite Hc. eauto.
  - unfold keyed at 1. rewrite Hc. exists rest'. simpl. rewrite IH. auto.
  - unfold keyed at 1. rewrite Hc. exists (List.filter (keyed env) rest).
    simpl. split; [reflexivity|discriminate].
Qed.

(** A result is that of the last invocation; the ones before it failed. *)
Lemma dispatch_result candidates last invs st r :
  dispatch env w prompt candidates last invs st ->
  result st = Some r ->
  exists front inv,
    invs = front ++ [inv] /\ Forall (failed w prompt) front /\
    adapter_run w prompt inv = Some (inv_calls inv, inr r).
Proof.
  induction 1 as [| |n rest last key adapter calls e invs st Hc Ha Hr _ IH
                  |n rest last key adapter calls r' Hc Ha Hr]; simpl; intros Hres.
  - discriminate.
  - auto.
  - destruct (IH Hres) as (front & inv & -> & Hf & Hlast).
    exists (mkInvocation n key calls :: front), inv. repeat split; auto.
    constructor; [|exact Hf]. exists e. unfold adapter_run; simpl. now rewrite Ha, Hr.
  - injection Hres as ->. exists [], (mkInvocation n key calls).
    repeat split; auto. unfold adapter_run; simpl. now rewrite Ha, Hr.
Qed.

(** Without a result every invocation failed, and [lastError] is the
    message of the last error, or what it was when nothing was invoked. *)
Lemma dispatch_exhausted candidates err invs st :
  dispatch env w prompt candidates err invs st ->
  result st = None ->
  Forall (failed w prompt) invs /\
  match last invs with
  | None => lastError st = err
  | Some inv =>
      exists e, adapter_run w prompt inv = Some (inv_calls inv, inl e) /\
                lastError st = message e
  end.
Proof.
  induction 1 as [| |n rest err key adapter calls e invs st Hc Ha Hr _ IH
                  |n rest err key adapter calls r' Hc Ha Hr];
    cbn [result]; intros Hres.
  - simpl. auto.
  - auto.
  - destruct (IH Hres) as (Hf & Hl).
    assert (Hrun : adapter_run w prompt (mkInvocation n key calls) = Some (calls, inl e))
      by (unfold adapter_run; simpl; now rewrite Ha, Hr).
    split; [constructor; [now exists e | exact Hf]|].
    rewrite last_cons. destruct (last invs); [exact Hl | eauto].
  - discriminate.
Qed.

(** An invocation that returns a result ends the loop with that result. *)
Lemma dispatch_winner candidates last invs st front inv r :
  dispatch env w prompt candidates last invs st ->
  invs = front ++ [inv] ->
  adapter_run w prompt inv = Some (inv_calls inv, inr r) ->
  result st = Some r.
Proof.
  intros H; revert front.
  induction H as [| |n rest last key adapter calls e invs st Hc Ha Hr _ IH
                  |n rest last key adapter calls r' Hc Ha Hr]; intros front Hinvs Hrun.
  - now destruct front.
  - eauto.
  - destruct front as [|x front]; simpl in Hinvs.
    + injection Hinvs as Hx Hy; subst. unfold adapter_run in Hrun; simpl in Hrun.
      rewrite Ha, Hr in Hrun. discriminate.
    + injection Hinvs as Hx Hy; subst. eauto.
  - destruct front as [|x [|y front]]; simpl in Hinvs; try discriminate.
    injection Hinvs as Hx; subst. unfold adapter_run in Hrun; simpl in Hrun.
    rewrite Ha, Hr in Hrun. simpl. congruence.
Qed.

End Dispatch.

(** ** The handler *)

Lemma generate_cases env w fields p :
  Js.own fields "prompt" = JStr p ->
  (p = EmptyString /\ generate env w (JObj fields) = ([], missing_prompt)) \/
  (p <> EmptyString /\ exists e,
      providersToTry (preference fields) = inl e /\
      generate env w (JObj fields) = ([], unexpected e)) \/
  (p <> EmptyString /\ exists candidates,
      providersToTry (preference fields) = inr candidates /\
      generate env w (JObj fields) =
      (fst (try_providers env w p candidates None),
       loop_reply (snd (try_providers env w p candidates None)))).
Proof.
  intros Hp. unfold preference, generate, generate_body. simpl. rewrite Hp.
  destruct p as [|c p]; [left; auto|right]; simpl.
  destruct (providersToTry _) as [e|candidates]; simpl.
  - left. split; [discriminate|]. eauto.
  - right. split; [discriminate|]. exists candidates. split; [reflexivity|].
    destruct (try_providers env w (String c p) candidates None) as [invs st].
    unfold loop_reply. simpl. now destruct (result st).
Qed.

Lemma providersToTry_auto v :
  v = JStr "auto" \/ Js.truthy v = false -> providersToTry v = inr auto_chain.
Proof.
  unfold providersToTry. intros [-> | ->]; [reflexivity|].
  now rewrite orb_true_r.
Qed.

(** C3: a request whose prompt is missing or empty is answered with
    status 400 and the error "Missing prompt in request body"; no adapter
    is invoked, so no outbound call is made. *)
Theorem missing_prompt_rejected env w fields :
  Js.own fields "prompt" = JUndefined \/ Js.own fields "prompt" = JStr EmptyString ->
  generate env w (JObj fields) =
    ([], mkReply 400 (JObj [ ("error", JStr "Missing prompt in request body") ])) /\
  outbound (fst (generate env w (JObj fields))) = [].
Proof.
  intros H.
  assert (E : generate env w (JObj fields) = ([], missing_prompt)).
  { unfold generate, generate_body; simpl. now destruct H as [-> | ->]. }
  rewrite E. split; reflexivity.
Qed.

Lemma missing_prompt_rejected_witness :
  generate {[ "GROQ_API_KEY" := "key" ]} sample_world
    (JObj [ ("prompt", JStr EmptyString); ("provider", JStr "groq") ]) =
    ([], mkReply 400 (JObj [ ("error", JStr "Missing prompt in request body") ])) /\
  outbound (fst (generate {[ "GROQ_API_KEY" := "key" ]} sample_world
    (JObj [ ("prompt", JStr EmptyString); ("provider", JStr "groq") ]))) = [].
Proof.
  apply (missing_prompt_rejected {[ "GROQ_API_KEY" := "key" ]} sample_world
           [ ("prompt", JStr EmptyString); ("provider", JStr "groq") ]).
  right. reflexivity.
Defined.

Lemma keyed_chain_NoDup env : List.NoDup (List.filter (keyed env) auto_chain).
Proof.
  apply List.NoDup_filter. unfold auto_chain.
  repeat constructor; simpl; intuition discriminate.
Qed.

(** C4: with the preference absent or "auto", the candidates are groq,
    openai, gemini, claude in this order.  The adapters invoked are, in
    that order and each once, those of the candidates with a credential,
    up to the first that returns a result; that result is the reply's, and
    every adapter invoked before it raised an error.  When none returns a
    result, every candidate with a credential was invoked and failed. *)
Theorem auto_chain_first_success env w fields p :
  Js.own fields "prompt" = JStr p -> p <> EmptyString ->
  Js.own fields "provider" = JUndefined \/ Js.own fields "provider" = JStr "auto" ->
  let invs := fst (generate env w (JObj fields)) in
  let reply := snd (generate env w (JObj fields)) in
  providersToTry (preference fields) = inr [ "groq"; "openai"; "gemini"; "claude" ] /\
  List.NoDup (map inv_provider invs) /\
  exists rest,
    List.filter (keyed env) [ "groq"; "openai"; "gemini"; "claude" ]
      = map inv_provider invs ++ rest /\
    ((exists front inv r,
         invs = front ++ [inv] /\ Forall (failed w p) front /\
         adapter_run w p inv = Some (inv_calls inv, inr r) /\
         reply = success r)
     \/ (rest = [] /\ Forall (failed w p) invs /\ reply_status reply = 500)).
Proof.
  intros Hp Hne Hprov invs reply.
  assert (Hcands : providersToTry (preference fields) = inr auto_chain).
  { apply providersToTry_auto. unfold preference. destruct Hprov as [-> | ->]; auto. }
  split; [exact Hcands|].
  destruct (generate_cases env w fields p Hp) as [[? _]|[(_ & e & He & _)|(_ & c & Hc & Hg)]];
    [contradiction|congruence|].
  rewrite Hcands in Hc; injection Hc as <-.
  subst invs reply. rewrite Hg. cbn [fst snd].
  pose proof (try_providers_dispatch env w p auto_chain None) as Hd.
  destruct (dispatch_order _ _ _ _ _ _ _ Hd) as (rest & Hrest & Hnone).
  assert (Hnd : List.NoDup (map inv_provider (fst (try_providers env w p auto_chain None)))).
  { pose proof (keyed_chain_NoDup env) as H. rewrite Hrest in H.
    now apply List.NoDup_app_remove_r in H. }
  split; [exact Hnd|]. exists rest. split; [exact Hrest|].
  unfold loop_reply.
  destruct (result (snd (try_providers env w p auto_chain None))) as [r|] eqn:Er.
  - left. destruct (dispatch_result _ _ _ _ _ _ _ r Hd Er) as (front & inv & ? & ? & ?).
    exists front, inv, r. auto.
  - right. destruct (dispatch_exhausted _ _ _ _ _ _ _ Hd Er) as (Hf & _). auto.
Qed.

Lemma auto_chain_first_success_witness :
  let env : gmap string string :=
    {[ "GROQ_API_KEY" := "expired"; "GEMINI_API_KEY" := "key" ]} in
  let fields := [ ("prompt", JStr "Write a post") ] in
  let invs := fst (generate env sample_world (JObj fields)) in
  let reply := snd (generate env sample_world (JObj fields)) in
  providersToTry (preference fields) = inr [ "groq"; "openai"; "gemini"; "claude" ] /\
  List.NoDup (map inv_provider invs) /\
  exists rest,
    List.filter (keyed env) [ "groq"; "openai"; "gemini"; "claude" ]
      = map inv_provider invs ++ rest /\
    ((exists front inv r,
         invs = front ++ [inv] /\ Forall (failed sample_world "Write a post") front /\
         adapter_run sample_world "Write a post" inv = Some (inv_calls inv, inr r) /\
         reply = success r)
     \/ (rest = [] /\ Forall (failed sample_world "Write a post") invs /\
         reply_status reply = 500)).
Proof.
  apply (auto_chain_first_success
           {[ "GROQ_API_KEY" := "expired"; "GEMINI_API_KEY" := "key" ]}
           sample_world [ ("prompt", JStr "Write a post") ] "Write a post").
  - reflexivity.
  - discriminate.
  - left. reflexivity.
Defined.

Lemma generate_invocations env w body :
  fst (generate env w body) = [] \/
  exists p candidates,
    fst (generate env w body) = fst (try_providers env w p candidates None).
Proof.
  unfold generate, generate_body.
  destruct (destructure body) as [e|[pv provider]]; simpl; [auto|].
  destruct (Js.truthy pv); simpl; [|auto].
  destruct (as_prompt pv) as [e|p]; simpl; [auto|].
  destruct (providersToTry provider) as [e|candidates]; simpl; [auto|].
  right. exists p, candidates.
  destruct (try_providers env w p candidates None) as [invs st]; simpl.
  now destruct (result st).
Qed.

Lemma env_or_first a b :
  match env_or a b with
  | Some key => if JsString.truthy key then Some key else None
  | None => None
  end = first_non_empty [a; b].
Proof.
  unfold env_or.
  destruct a as [s|], b as [t|]; simpl;
    try destruct (JsString.truthy s) eqn:E; simpl; rewrite ?E; reflexivity.
Qed.

Lemma credential_first_non_empty env :
  credential env "groq" = first_non_empty [env !! "GROQ_API_KEY"] /\
  credential env "openai" = first_non_empty [env !! "OPENAI_API_KEY"] /\
  credential env "gemini" =
    first_non_empty [env !! "GEMINI_API_KEY"; env !! "BARD_API_KEY"] /\
  credential env "claude" =
    first_non_empty [env !! "ANTHROPIC_API_KEY"; env !! "CLAUDE_API_KEY"].
Proof.
  unfold credential, apiKey_for; simpl.
  repeat split; apply env_or_first.
Qed.

(** C5: every adapter a dispatch invokes is given the credential that
    resolves for its provider, which is not empty; the credential of a
    provider is the first of its variables that is set and not empty
    (gemini: GEMINI_API_KEY then BARD_API_KEY; claude: ANTHROPIC_API_KEY
    then CLAUDE_API_KEY); and a candidate for which none resolves is passed
    over: the loop goes on with the next candidate, with no invocation and
    [lastError] as it was. *)
Theorem credential_gates_adapters env w :
  (forall body inv,
      In inv (fst (generate env w body)) ->
      credential env (inv_provider inv) = Some (inv_apiKey inv) /\
      inv_apiKey inv <> EmptyString) /\
  (credential env "groq" = first_non_empty [env !! "GROQ_API_KEY"] /\
   credential env "openai" = first_non_empty [env !! "OPENAI_API_KEY"] /\
   credential env "gemini" =
     first_non_empty [env !! "GEMINI_API_KEY"; env !! "BARD_API_KEY"] /\
   credential env "claude" =
     first_non_empty [env !! "ANTHROPIC_API_KEY"; env !! "CLAUDE_API_KEY"]) /\
  (forall prompt n rest err,
      credential env n = None ->
      try_providers env w prompt (n :: rest) err =
      try_providers env w prompt rest err).
Proof.
  split; [|split].
  - intros body inv Hin.
    assert (Hc : credential env (inv_provider inv) = Some (inv_apiKey inv)).
    { destruct (generate_invocations env w body) as [E|(p & c & E)];
        rewrite E in Hin; [destruct Hin|].
      pose proof (dispatch_credentials _ _ _ _ _ _ _
                    (try_providers_dispatch env w p c None)) as HF.
      rewrite List.Forall_forall in HF. now apply HF. }
    split; [exact Hc|]. now apply credential_Some in Hc.
  - apply credential_first_non_empty.
  - intros prompt n rest err Hn. simpl. now rewrite Hn.
Qed.

Lemma credential_gates_adapters_witness :
  try_providers {[ "BARD_API_KEY" := "key" ]} sample_world "Write a post"
    [ "groq"; "gemini" ] None =
  try_providers {[ "BARD_API_KEY" := "key" ]} sample_world "Write a post"
    [ "gemini" ] None.
Proof.
  apply (proj2 (proj2 (credential_gates_adapters
                         {[ "BARD_API_KEY" := "key" ]} sample_world))).
  reflexivity.
Defined.

(** ** Exhaustion and success replies *)

Lemma no_success_no_result env w prompt candidates err :
  Forall (no_success env w prompt) candidates ->
  result (snd (try_providers env w prompt candidates err)) = None.
Proof.
  intros H; revert err.
  induction H as [|n rest [Hn|(key & adapter & calls & e & Hc & Ha & Hr)] _ IH];
    intros err; simpl.
  - reflexivity.
  - rewrite Hn. apply IH.
  - rewrite Hc, Ha, Hr. specialize (IH (message e)).
    now destruct (try_providers env w prompt rest (message e)).
Qed.

Lemma exhausted_message_text err :
  exhausted_message err =
  exhaustion_text match err with
                  | Some m => if JsString.truthy m then m else "All providers failed"
                  | None => "All providers failed"
                  end.
Proof. reflexivity. Qed.

Lemma exhaustion_text_names detail :
  Forall (fun name => JsString.includes (exhaustion_text detail) name = true)
    credential_names.
Proof.
  unfold exhaustion_text, credential_names.
  repeat constructor; do 2 apply includes_app_r; vm_compute; reflexivity.
Qed.

Lemma unrecognized_no_credential env n :
  ~ In n auto_chain -> credential env n = None.
Proof.
  intros Hn. destruct (credential env n) as [key|] eqn:E; [|reflexivity].
  apply credential_Some in E as (_ & Hin & _). contradiction.
Qed.

(** C7: when no candidate gets a result (each lacks a credential, is not
    a known provider, or fails), the reply has status 500 and an error
    text that names GROQ_API_KEY, OPENAI_API_KEY, GEMINI_API_KEY and
    ANTHROPIC_API_KEY; the text carries the message of the error of the
    last adapter invoked, and is the generic "All providers failed" text
    when no adapter was invoked.  In particular a preference that names no
    known provider invokes no adapter and gets the generic text. *)
Theorem exhaustion_reply env w fields p :
  Js.own fields "prompt" = JStr p -> p <> EmptyString ->
  let invs := fst (generate env w (JObj fields)) in
  let reply := snd (generate env w (JObj fields)) in
  (forall candidates,
      providersToTry (preference fields) = inr candidates ->
      Forall (no_success env w p) candidates ->
      exists msg,
        reply = mkReply 500 (JObj [ ("error", JStr msg) ]) /\
        Forall (fun name => JsString.includes msg name = true) credential_names /\
        Forall (failed w p) invs /\
        match last invs with
        | None => msg = exhaustion_text "All providers failed"
        | Some inv =>
            exists e,
              adapter_run w p inv = Some (inv_calls inv, inl e) /\
              forall m, message e = Some m ->
                JsString.includes msg m = true /\
                (m <> EmptyString -> msg = exhaustion_text m)
        end) /\
  (forall s,
      Js.own fields "provider" = JStr s -> s <> EmptyString -> s <> "auto" ->
      ~ In (JsString.toLowerCase s) auto_chain ->
      invs = [] /\
      reply = mkReply 500 (JObj [ ("error", JStr (exhaustion_text "All providers failed")) ])).
Proof.
  intros Hp Hne invs reply.
  destruct (generate_cases env w fields p Hp) as [[? _]|H]; [contradiction|].
  split.
  - intros candidates Hc Hall.
    destruct H as [(_ & e & He & _)|(_ & c & Hc' & Hg)]; [congruence|].
    rewrite Hc in Hc'; injection Hc' as <-.
    subst invs reply. rewrite Hg. cbn [fst snd].
    pose proof (no_success_no_result env w p candidates None Hall) as Hres.
    pose proof (try_providers_dispatch env w p candidates None) as Hd.
    destruct (dispatch_exhausted _ _ _ _ _ _ _ Hd Hres) as (Hf & Hl).
    unfold loop_reply. rewrite Hres. unfold all_failed.
    eexists. split; [reflexivity|].
    rewrite exhausted_message_text.
    split; [apply exhaustion_text_names|]. split; [exact Hf|].
    destruct (last (fst (try_providers env w p candidates None))) as [inv|].
    + destruct Hl as (e & Hrun & ->). exists e. split; [exact Hrun|].
      intros m ->. split.
      * unfold exhaustion_text. destruct m; [reflexivity|]. simpl JsString.truthy.
        cbv iota. apply includes_app_r, includes_here.
      * intros Hm. apply truthy_ne in Hm. now rewrite Hm.
    + now rewrite Hl.
  - intros s Hs Hs1 Hs2 Hin.
    assert (Hc : providersToTry (preference fields) = inr [JsString.toLowerCase s]).
    { unfold preference. rewrite Hs. unfold providersToTry. simpl.
      destruct (String.eqb_spec s "auto"); [contradiction|].
      apply truthy_ne in Hs1. now rewrite Hs1. }
    destruct H as [(_ & e & He & _)|(_ & c & Hc' & Hg)]; [congruence|].
    rewrite Hc in Hc'; injection Hc' as <-.
    subst invs reply. rewrite Hg. simpl.
    rewrite (unrecognized_no_credential env _ Hin). simpl. auto.
Qed.

Lemma exhaustion_reply_witness :
  exists msg,
    snd (generate {[ "GROQ_API_KEY" := "expired" ]} sample_world
           (JObj [ ("prompt", JStr "Write a post") ]))
      = mkReply 500 (JObj [ ("error", JStr msg) ]) /\
    msg = exhaustion_text "Invalid API Key".
Proof.
  destruct (proj1 (exhaustion_reply {[ "GROQ_API_KEY" := "expired" ]} sample_world
                     [ ("prompt", JStr "Write a post") ] "Write a post"
                     eq_refl ltac:(discriminate))
              auto_chain eq_refl) as (msg & Hreply & _ & _ & Hlast).
  - constructor.
    + right. exists "expired", Groq.generate. eexists _, _.
      repeat split; vm_compute; reflexivity.
    + repeat (constructor; [left; reflexivity|]). constructor.
  - exists msg. split; [exact Hreply|].
    destruct Hlast as (e & Hrun & Hm). vm_compute in Hrun. injection Hrun as <-.
    now apply (Hm "Invalid API Key").
Defined.

(** A result carries the name of the adapter that produced it and the
    model of its last call. *)
Lemma adapter_result_labels w prompt inv r :
  adapter_run w prompt inv = Some (inv_calls inv, inr r) ->
  provider r = inv_provider inv /\ last (inv_calls inv) = Some (model r).
Proof.
  unfold adapter_run, aiProviders.
  destruct (String.eqb_spec (inv_provider inv) "groq") as [->|_].
  { intros [= H]. now apply (vendor_result_trimmed VGroq) in H as (_ & _ & ? & ?). }
  destruct (String.eqb_spec (inv_provider inv) "gemini") as [->|_].
  { intros [= H]. now apply (vendor_result_trimmed VGemini) in H as (_ & _ & ? & ?). }
  destruct (String.eqb_spec (inv_provider inv) "openai") as [->|_].
  { intros [= H]. now apply (vendor_result_trimmed VOpenAI) in H as (_ & _ & ? & ?). }
  destruct (String.eqb_spec (inv_provider inv) "claude") as [->|_]; [|discriminate].
  intros H.
  assert (H' : Claude.generate w prompt (inv_apiKey inv) = (inv_calls inv, inr r))
    by congruence.
  now apply claude_result in H' as (_ & ? & ?).
Qed.

(** C8: when the last adapter a dispatch invokes returns a result, the
    reply has status 200 and the body
    [{ candidates: [ { content: { parts: [ { text } ] } } ], provider, model }]
    with the text of that result, the name of that adapter and the model
    that answered. *)
Theorem success_envelope env w fields p front inv r :
  Js.own fields "prompt" = JStr p ->
  fst (generate env w (JObj fields)) = front ++ [inv] ->
  adapter_run w p inv = Some (inv_calls inv, inr r) ->
  snd (generate env w (JObj fields)) =
    mkReply 200
      (JObj [ ("candidates",
               JArr [ JObj [ ("content",
                              JObj [ ("parts",
                                      JArr [ JObj [ ("text", JStr (text r)) ] ]) ]) ] ]);
              ("provider", JStr (inv_provider inv));
              ("model", JStr (model r)) ]) /\
  last (inv_calls inv) = Some (model r).
Proof.
  intros Hp Hinvs Hrun.
  destruct (adapter_result_labels _ _ _ _ Hrun) as (Hprov & Hmodel).
  split; [|exact Hmodel]. rewrite <- Hprov.
  destruct (generate_cases env w fields p Hp)
    as [(_ & Hg)|[(_ & e & _ & Hg)|(_ & c & _ & Hg)]];
    rewrite Hg in *; cbn [fst snd] in *;
    try (now destruct front).
  pose proof (try_providers_dispatch env w p c None) as Hd.
  unfold loop_reply.
  now rewrite (dispatch_winner _ _ _ _ _ _ _ _ _ _ Hd Hinvs Hrun).
Qed.

Lemma success_envelope_witness :
  snd (generate {[ "GROQ_API_KEY" := "key" ]} sample_world
         (JObj [ ("prompt", JStr "Write a post") ])) =
    mkReply 200
      (JObj [ ("candidates",
               JArr [ JObj [ ("content",
                              JObj [ ("parts",
                                      JArr [ JObj [ ("text", JStr "Hello!") ] ]) ]) ] ]);
              ("provider", JStr "groq");
              ("model", JStr "llama-3.1-70b-versatile") ]) /\
  last [ "llama-3.1-8b-instant"; "llama-3.1-70b-versatile" ]
    = Some "llama-3.1-70b-versatile".
Proof.
  apply (success_envelope {[ "GROQ_API_KEY" := "key" ]} sample_world
           [ ("prompt", JStr "Write a post") ] "Write a post" []
           (mkInvocation "groq" "key"
              [ "llama-3.1-8b-instant"; "llama-3.1-70b-versatile" ])
           (mkResult "Hello!" "llama-3.1-70b-versatile" "groq")).
  - reflexivity.
  - vm_compute. reflexivity.
  - vm_compute. reflexivity.
Defined.

(** ** The client-side guard *)

Section ClientGuard.

Import Client.

Variable JSON_parse : string -> Throws JsVal.

Lemma call_single_flight st prompt provider :
  single_flight st -> single_flight (call st prompt provider).
Proof.
  intros [(Hf & Hs)|(Hf & s & Hs)]; unfold call; rewrite Hf.
  - destruct prompt; simpl; rewrite ?Hs; try solve [left; auto].
    right. simpl. eauto.
  - right. simpl. eauto.
Qed.

Lemma resume_fetch_single_flight st i outcome :
  single_flight st -> single_flight (resume_fetch st i outcome).
Proof.
  intros H. unfold resume_fetch.
  destruct H as [(Hf & Hs)|(Hf & s & Hs)]; rewrite Hs.
  - rewrite lookup_nil. left. auto.
  - destruct i as [|i]; simpl; [|right; eauto].
    destruct s; [|right; eauto].
    destruct outcome; simpl; [left; auto|right; eauto].
Qed.

Lemma resume_text_single_flight st i outcome :
  single_flight st -> single_flight (resume_text JSON_parse st i outcome).
Proof.
  intros H. unfold resume_text.
  destruct H as [(Hf & Hs)|(Hf & s & Hs)]; rewrite Hs.
  - rewrite lookup_nil. left. auto.
  - destruct i as [|i]; simpl; [|right; eauto].
    destruct s; [right; eauto|]. left. auto.
Qed.

Lemma step_single_flight st a :
  single_flight st -> single_flight (step JSON_parse st a).
Proof.
  destruct a; simpl;
    auto using call_single_flight, resume_fetch_single_flight, resume_text_single_flight.
Qed.

(** The invariant of the caller, over every interleaving of calls and
    settlements. *)
Lemma run_single_flight actions : single_flight (run JSON_parse actions).
Proof.
  unfold run. induction actions as [|a actions IH] using rev_ind.
  - left. auto.
  - rewrite foldl_snoc. now apply step_single_flight.
Qed.

(** C9: in every state the caller can reach, the flag is set exactly while
    one call is outstanding.  A call made while it is set is rejected at
    once with the "please wait" error and issues no request; a call made
    while it is clear sets it and then issues its request; and every way
    out of the call clears it: a prompt that is no string, a rejected
    [fetch], and whatever follows [response.text()], be it a result or an
    error.  A [fetch] that resolves takes the call on to
    [response.text()], with the flag still set.  So a call made while the
    flag is clear, followed to its end along either path, leaves the flag
    clear and no call outstanding, and the next call passes. *)
Theorem single_flight_guard actions :
  let st := run JSON_parse actions in
  single_flight st /\
  (inFlight st = true ->
   forall prompt provider,
     step JSON_parse st (Call prompt provider) =
     mkState true (suspended st) (log st ++ [Rejects please_wait])) /\
  (inFlight st = false ->
   forall p provider,
     step JSON_parse st (Call (JStr p) provider) =
     mkState true [AwaitFetch]
       (log st ++ [SetFlag; Fetch (request_body (JStr p) (default_provider provider))])) /\
  (inFlight st = false ->
   forall prompt provider,
     (forall p, prompt <> JStr p) ->
     exists e,
       step JSON_parse st (Call prompt provider) =
       mkState false [] (log st ++ [SetFlag; ClearFlag; Rejects e])) /\
  (suspended st = [AwaitFetch] ->
   forall fetchError,
     exists e,
       step JSON_parse st (FetchSettles 0 (inl fetchError)) =
       mkState false [] (log st ++ [ClearFlag; Rejects e])) /\
  (forall response,
     suspended st = [AwaitText response] ->
     forall outcome,
       exists settled,
         step JSON_parse st (TextSettles 0 outcome) =
         mkState false [] (log st ++ [ClearFlag; settled]) /\
         (settled = match (responseText <- outcome ;; finish JSON_parse response responseText) with
                    | inr t => Resolves t
                    | inl e => Rejects e
                    end)) /\
  (suspended st = [AwaitFetch] ->
   forall response,
     step JSON_parse st (FetchSettles 0 (inr response)) =
     mkState true [AwaitText response] (log st)) /\
  (inFlight st = false ->
   forall p provider response outcome,
     run JSON_parse
       (actions ++ [ Call (JStr p) provider;
                     FetchSettles 0 (inr response);
                     TextSettles 0 outcome ]) =
     mkState false []
       (log st ++
        [ SetFlag; Fetch (request_body (JStr p) (default_provider provider));
          ClearFlag;
          match (responseText <- outcome ;; finish JSON_parse response responseText) with
          | inr t => Resolves t
          | inl e => Rejects e
          end ])) /\
  (inFlight st = false ->
   forall p provider fetchError,
     exists e,
       run JSON_parse
         (actions ++ [ Call (JStr p) provider; FetchSettles 0 (inl fetchError) ]) =
       mkState false []
         (log st ++
          [ SetFlag; Fetch (request_body (JStr p) (default_provider provider));
            ClearFlag; Rejects e ])).
Proof.
  intros st. pose proof (run_single_flight actions) as Hinv. fold st in Hinv.
  assert (Hidle : inFlight st = false -> suspended st = []).
  { intros Hf. destruct Hinv as [(_ & Hs)|(Hf' & _)]; [exact Hs|congruence]. }
  assert (Hbusy : forall s, suspended st = [s] -> inFlight st = true).
  { intros s Hs. destruct Hinv as [(_ & Hs')|(Hf & _)]; [congruence|exact Hf]. }
  split; [exact Hinv|].
  split.
  { intros Hf prompt provider. simpl. unfold call. now rewrite Hf. }
  split.
  { intros Hf p provider. simpl. unfold call. rewrite Hf. simpl.
    rewrite (Hidle Hf). now rewrite <- app_assoc. }
  split.
  { intros Hf prompt provider Hp. simpl. unfold call. rewrite Hf.
    destruct prompt; try (now destruct (Hp s)); unfold settle; simpl;
      rewrite (Hidle Hf), <- app_assoc; eauto. }
  split.
  { intros Hs fetchError. simpl. unfold resume_fetch. rewrite Hs. simpl.
    unfold settle. simpl. eauto. }
  split.
  { intros response Hs outcome. simpl. unfold resume_text. rewrite Hs. simpl.
    unfold settle. simpl. eauto. }
  split.
  { intros Hs response. simpl. unfold resume_fetch. rewrite Hs. simpl.
    now rewrite (Hbusy _ Hs). }
  split.
  { intros Hf p provider response outcome.
    unfold run. rewrite foldl_app. fold (run JSON_parse actions). fold st.
    simpl. unfold call. rewrite Hf, (Hidle Hf). simpl.
    unfold resume_text, settle. simpl. now rewrite <- !app_assoc. }
  intros Hf p provider fetchError.
  unfold run. rewrite foldl_app. fold (run JSON_parse actions). fold st.
  simpl. unfold call. rewrite Hf, (Hidle Hf). simpl.
  unfold resume_fetch, settle. simpl. rewrite <- !app_assoc. simpl. eauto.
Qed.

End ClientGuard.

Lemma single_flight_guard_witness :
  Client.step parse_hello
    (Client.run parse_hello [Client.Call (JStr "Write a post") JUndefined])
    (Client.Call (JStr "Another") JUndefined) =
  Client.mkState true
    (Client.suspended (Client.run parse_hello [Client.Call (JStr "Write a post") JUndefined]))
    (Client.log (Client.run parse_hello [Client.Call (JStr "Write a post") JUndefined])
       ++ [Client.Rejects Client.please_wait]) /\
  Client.run parse_hello
    [ Client.Call (JStr "Write a post") JUndefined;
      Client.FetchSettles 0 (inr (Client.mkResponse 200 "OK" (inr "{...}")));
      Client.TextSettles 0 (inr "{...}") ] =
  Client.mkState false []
    [ Client.SetFlag;
      Client.Fetch (JObj [ ("prompt", JStr "Write a post"); ("provider", JStr "groq") ]);
      Client.ClearFlag;
      Client.Resolves "Hello!" ].
Proof.
  split.
  - apply (proj1 (proj2 (single_flight_guard parse_hello
                           [Client.Call (JStr "Write a post") JUndefined]))).
    reflexivity.
  - apply (proj1 (proj2 (proj2 (proj2 (proj2 (proj2 (proj2 (proj2
             (single_flight_guard parse_hello [])))))))) eq_refl
             "Write a post" JUndefined
             (Client.mkResponse 200 "OK" (inr "{...}")) (inr "{...}")).
Defined.

(** ** The client's default preference *)

Lemma groq_only env w p err :
  Forall (fun inv => inv_provider inv = "groq")
    (fst (try_providers env w p ["groq"] err)) /\
  length (fst (try_providers env w p ["groq"] err)) <= 1.
Proof.
  simpl. destruct (credential env "groq") as [key|]; simpl; [|auto].
  change (aiProviders "groq") with (Some Groq.generate).
  destruct (Groq.generate w p key) as [calls [e|r]]; simpl; auto.
Qed.

(** C10: called without a provider, the client puts [provider: "groq"]
    into the request it sends (whatever is passed, the field is never
    absent), and for that request the dispatcher's candidate list is
    ["groq"] alone: it invokes at most one adapter, Groq's, whatever
    credentials are configured.  The four-provider chain is reached only
    with a preference passed explicitly, such as "auto". *)
Theorem client_default_pins_groq :
  (forall st p,
      Client.inFlight st = false ->
      Client.log (Client.call st (JStr p) JUndefined) =
      Client.log st ++ [ Client.SetFlag; Client.Fetch (JObj (default_request p)) ]) /\
  (forall provider, Client.default_provider provider <> JUndefined) /\
  (forall env w p,
      providersToTry (preference (default_request p)) = inr ["groq"] /\
      Forall (fun inv => inv_provider inv = "groq")
        (fst (generate env w (JObj (default_request p)))) /\
      length (fst (generate env w (JObj (default_request p)))) <= 1) /\
  (forall p,
      Client.request_body (JStr p) (Client.default_provider (JStr "auto")) =
        JObj [ ("prompt", JStr p); ("provider", JStr "auto") ] /\
      providersToTry (preference [ ("prompt", JStr p); ("provider", JStr "auto") ]) =
        inr [ "groq"; "openai"; "gemini"; "claude" ]).
Proof.
  split; [|split; [|split]].
  - intros st p Hf. unfold Client.call. rewrite Hf. simpl.
    now rewrite <- app_assoc.
  - now intros [].
  - intros env w p. split; [reflexivity|].
    destruct (generate_cases env w (default_request p) p eq_refl)
      as [(_ & Hg)|[(_ & e & He & _)|(_ & c & Hc & Hg)]].
    + rewrite Hg. simpl. auto.
    + discriminate He.
    + injection Hc as <-. rewrite Hg. apply groq_only.
  - intros p. split; reflexivity.
Qed.

Lemma client_default_pins_groq_witness :
  Client.log (Client.call Client.init (JStr "Write a post") JUndefined) =
  Client.log Client.init ++
    [ Client.SetFlag; Client.Fetch (JObj (default_request "Write a post")) ].
Proof.
  apply (proj1 client_default_pins_groq Client.init "Write a post").
  reflexivity.
Defined.

(** * Further properties of the router, the server and the client *)

(** ** Adapters *)

Lemma blank_continue v w prompt key m :
  blank_answer v w prompt key m -> vendor_attempt v w prompt key m = Continue.
Proof.
  intros (t & Hy & Ht).
  assert (Hr : forall n, return_if_text (JStr t) m n = inr None).
  { intros n. unfold return_if_text; simpl.
    destruct (JsString.truthy t); [|reflexivity]. simpl. now rewrite Ht. }
  destruct v; simpl in Hy.
  - destruct Hy as (chat & Hc & Hf). unfold vendor_attempt, Groq.attempt, Groq.try_body.
    rewrite Hc; simpl. rewrite Hf; simpl. now rewrite Hr.
  - unfold vendor_attempt, Gemini.attempt, Gemini.try_body.
    rewrite Hy; simpl. now rewrite Hr.
  - destruct Hy as (r & data & Hf & Hok & Hj & Hc).
    unfold vendor_attempt, OpenAI.attempt, OpenAI.try_body.
    rewrite Hf; simpl. rewrite Hok; simpl. rewrite Hj; simpl. rewrite Hc; simpl.
    now rewrite Hr.
Qed.

Lemma passed_over_continue v w prompt key m :
  passed_over v w prompt key m -> vendor_attempt v w prompt key m = Continue.
Proof. intros [H|H]; [now apply recoverable_continue | now apply blank_continue]. Qed.

(** X1: when every model of an adapter's list is passed over (its attempt
    fails in a way the adapter treats as recoverable, or its answer is
    blank), the adapter has called every model of the list, in order, and
    raises its own "All ... models failed" error. *)
Theorem adapter_exhaustion v w prompt key :
  (forall m, In m (vendor_models v) -> passed_over v w prompt key m) ->
  vendor_generate v w prompt key =
  (vendor_models v, inl (new_Error (vendor_exhausted v))).
Proof.
  intros H. rewrite vendor_generate_loop.
  rewrite <- (app_nil_r (vendor_models v)) at 1.
  rewrite for_models_skip by (intros x Hx; now apply passed_over_continue, H).
  simpl. now rewrite app_nil_r.
Qed.

Lemma adapter_exhaustion_witness :
  vendor_generate VGroq
    (mkWorld (fun _ _ _ => inr (chat_completion "  "))
             (fun _ _ _ => inr EmptyString)
             (fun _ _ _ => inl (new_Error "fetch failed"))
             (fun _ _ => inl (new_Error "fetch failed")))
    "Write a post" "key" =
  (vendor_models VGroq, inl (new_Error (vendor_exhausted VGroq))).
Proof.
  apply adapter_exhaustion.
  intros m _. right. exists "  ". split; [|reflexivity].
  exists (chat_completion "  "). split; reflexivity.
Defined.

(** X2: a blank answer does not end an adapter's loop: when the models
    before [m] are passed over, by a recoverable failure or by a blank
    answer, and [m] answers with text that is not blank, the adapter
    returns the trimmed text of [m] under the name of [m], and the models
    after [m] are not called. *)
Theorem fallback_past_blank_answers v w prompt key pre m post t :
  vendor_models v = pre ++ m :: post ->
  (forall x, In x pre -> passed_over v w prompt key x) ->
  yields v w prompt key m t ->
  JsString.trim t <> EmptyString ->
  vendor_generate v w prompt key =
  (pre ++ [m], inr (mkResult (JsString.trim t) m (vendor_name v))).
Proof.
  intros Hmodels Hpre Hm Ht.
  rewrite vendor_generate_loop, Hmodels.
  apply for_models_return.
  - intros x Hx. now apply passed_over_continue, Hpre.
  - now apply yields_return.
Qed.

Lemma fallback_past_blank_answers_witness :
  Gemini.generate
    (mkWorld (fun _ _ _ => inl (new_Error "fetch failed"))
             (fun _ m _ => if String.eqb m "gemini-2.0-flash-exp"
                           then inr " " else inr " Hi ")
             (fun _ _ _ => inl (new_Error "fetch failed"))
             (fun _ _ => inl (new_Error "fetch failed")))
    "Write a post" "key" =
  ([ "gemini-2.0-flash-exp"; "gemini-1.5-flash-latest" ],
   inr (mkResult "Hi" "gemini-1.5-flash-latest" "gemini")).
Proof.
  apply (fallback_past_blank_answers VGemini _ "Write a post" "key"
           [ "gemini-2.0-flash-exp" ] "gemini-1.5-flash-latest"
           [ "gemini-1.5-pro-latest"; "gemini-1.5-flash"; "gemini-1.5-pro"; "gemini-pro" ]
           " Hi ").
  - reflexivity.
  - intros x [<-|[]]. right. exists " ". split; reflexivity.
  - reflexivity.
  - discriminate.
Defined.

(** X3: for the OpenAI adapter a 404 is no sign of an unavailable model
    when the body of the response is not JSON: the error of
    [response.json()] leaves the adapter at once, unless its message
    happens to contain "model_not_found" or "404", and the models after it
    are not called. *)
Theorem openai_unparseable_404_is_fatal w prompt key m r e msg :
  In m (fst (OpenAI.generate w prompt key)) ->
  openai_fetch w key m prompt = inr r ->
  status r = 404 ->
  json r = inl e ->
  message e = Some msg ->
  JsString.includes msg "model_not_found" = false ->
  JsString.includes msg "404" = false ->
  exists pre, OpenAI.generate w prompt key = (pre ++ [m], inl e).
Proof.
  intros Hin Hf Hs Hj Hm H1 H2.
  apply for_models_throw; [exact Hin|].
  unfold OpenAI.attempt, OpenAI.try_body, OpenAI.not_ok, ok.
  rewrite Hf; simpl. rewrite Hs; simpl. rewrite Hj; simpl.
  unfold OpenAI.catch. now rewrite Hm, H1, H2.
Qed.

Lemma openai_unparseable_404_is_fatal_witness :
  exists pre,
    OpenAI.generate
      (mkWorld (fun _ _ _ => inl (new_Error "fetch failed"))
               (fun _ _ _ => inl (new_Error "fetch failed"))
               (fun _ _ _ =>
                  inr (mkResponse 404
                         (inl (new_Error "Unexpected token < in JSON at position 0"))))
               (fun _ _ => inl (new_Error "fetch failed")))
      "Write a post" "key" =
    (pre ++ [ "gpt-4" ],
     inl (new_Error "Unexpected token < in JSON at position 0")).
Proof.
  eapply (openai_unparseable_404_is_fatal _ "Write a post" "key" "gpt-4").
  - vm_compute. auto.
  - reflexivity.
  - reflexivity.
  - reflexivity.
  - reflexivity.
  - reflexivity.
  - reflexivity.
Defined.

(** X4: the Claude adapter makes exactly one call, and it returns a result
    exactly when the response is 2xx, its body is JSON and the [text] of
    the first element of [content] is a string that is not empty; the
    result carries that text, trimmed. *)
Theorem claude_single_attempt w prompt key :
  fst (Claude.generate w prompt key) = [ Claude.modelName ] /\
  forall r,
    snd (Claude.generate w prompt key) = inr r <->
    exists resp data content block t,
      claude_fetch w key prompt = inr resp /\ ok resp = true /\
      json resp = inr data /\ Js.get data "content" = inr content /\
      Js.first content = inr block /\ Js.get_opt block "text" = JStr t /\
      t <> EmptyString /\
      r = mkResult (JsString.trim t) Claude.modelName "claude".
Proof.
  split; [reflexivity|]. intros r. unfold Claude.generate, Claude.body; simpl. split.
  - destruct (claude_fetch w key prompt) as [|resp]; simpl; [discriminate|].
    destruct (ok resp) eqn:Hok; simpl.
    + destruct (json resp) as [|data] eqn:Hj; simpl; [discriminate|].
      destruct (Js.get data "content") as [|content] eqn:Hc; simpl; [discriminate|].
      destruct (Js.first content) as [|block] eqn:Hb; simpl; [discriminate|].
      destruct (Js.get_opt block "text") as [| |b|z|t|items|fields] eqn:Ht; simpl;
        try discriminate;
        try solve [destruct b; discriminate | destruct (negb _); discriminate].
      destruct t as [|c t]; simpl; [discriminate|].
      intros [= <-]. exists resp, data, content, block, (String c t).
      repeat (split; [assumption || reflexivity|]).
      split; [discriminate|reflexivity].
    + destruct (json resp) as [|body]; simpl; [discriminate|].
      destruct (Js.get body "error"); simpl; discriminate.
  - intros (resp & data & content & block & t & -> & Hok & Hj & Hc & Hb & Ht & Hne & ->).
    simpl. rewrite Hok; simpl. rewrite Hj; simpl. rewrite Hc; simpl.
    rewrite Hb; simpl. rewrite Ht; simpl.
    destruct t; [contradiction|reflexivity].
Qed.

Lemma claude_single_attempt_witness :
  snd (Claude.generate
         (mkWorld (fun _ _ _ => inl (new_Error "fetch failed"))
                  (fun _ _ _ => inl (new_Error "fetch failed"))
                  (fun _ _ _ => inl (new_Error "fetch failed"))
                  (fun _ _ =>
                     inr (mkResponse 200
                            (inr (JObj [ ("content",
                                          JArr [ JObj [ ("text", JStr " Hi ") ] ]) ])))))
         "Write a post" "key") =
  inr (mkResult "Hi" Claude.modelName "claude").
Proof.
  apply (proj2 (claude_single_attempt _ "Write a post" "key")).
  eexists _, _, _, _, " Hi ". repeat split; try reflexivity. discriminate.
Defined.

(** ** The dispatcher, for any request body *)

Lemma providersToTry_shape v candidates :
  providersToTry v = inr candidates ->
  candidates = auto_chain \/
  exists s, v = JStr s /\ candidates = [JsString.toLowerCase s].
Proof.
  unfold providersToTry. destruct (_ || _); [intros [= <-]; auto|].
  destruct v; try discriminate. intros [= <-]. eauto.
Qed.

Lemma generate_outcome env w body :
  generate env w body = ([], missing_prompt) \/
  (exists e, generate env w body = ([], unexpected e)) \/
  (exists p pv candidates,
      destructure body = inr (JStr p, pv) /\ p <> EmptyString /\
      providersToTry pv = inr candidates /\
      generate env w body =
      (fst (try_providers env w p candidates None),
       loop_reply (snd (try_providers env w p candidates None)))).
Proof.
  unfold generate, generate_body.
  destruct (destructure body) as [e|[prompt pv]]; simpl; [eauto|].
  destruct (Js.truthy prompt) eqn:Ht; simpl; [|auto].
  destruct prompt; simpl; eauto.
  destruct (providersToTry pv) as [e|candidates] eqn:Hc; simpl; [eauto|].
  right; right. exists s, pv, candidates.
  repeat split; auto.
  - intros ->. discriminate.
  - destruct (try_providers env w s candidates None) as [invs st]; simpl.
    unfold loop_reply. now destruct (result st).
Qed.

Lemma adapter_run_text w prompt inv r :
  adapter_run w prompt inv = Some (inv_calls inv, inr r) ->
  JsString.trim (text r) = text r /\
  (provider r <> "claude" -> text r <> EmptyString).
Proof.
  unfold adapter_run, aiProviders.
  destruct (String.eqb_spec (inv_provider inv) "groq") as [_|_].
  { intros [= H]. now apply (vendor_result_trimmed VGroq) in H as (? & ? & _). }
  destruct (String.eqb_spec (inv_provider inv) "gemini") as [_|_].
  { intros [= H]. now apply (vendor_result_trimmed VGemini) in H as (? & ? & _). }
  destruct (String.eqb_spec (inv_provider inv) "openai") as [_|_].
  { intros [= H]. now apply (vendor_result_trimmed VOpenAI) in H as (? & ? & _). }
  destruct (String.eqb_spec (inv_provider inv) "claude") as [_|_]; [|discriminate].
  intros H.
  assert (H' : Claude.generate w prompt (inv_apiKey inv) = (inv_calls inv, inr r))
    by congruence.
  apply claude_result in H' as (? & _ & ?). split; [assumption|]. contradiction.
Qed.

Lemma success_inj r r' : success r = success r' -> r = r'.
Proof. destruct r, r'. unfold success; simpl. now intros [= -> -> ->]. Qed.

(** X5: the text of every 200 reply of the dispatcher is equal to its own
    trimmed form, and it is not empty unless the result comes from the
    Claude adapter. *)
Theorem success_text_trimmed env w body r :
  snd (generate env w body) = success r ->
  JsString.trim (text r) = text r /\
  (provider r <> "claude" -> text r <> EmptyString).
Proof.
  intros H.
  destruct (generate_outcome env w body)
    as [Hg|[(e & Hg)|(p & pv & c & _ & _ & _ & Hg)]];
    rewrite Hg in H; cbn [snd] in H; try discriminate H.
  unfold loop_reply in H.
  destruct (result (snd (try_providers env w p c None))) as [r'|] eqn:Er;
    [|discriminate H].
  apply success_inj in H as ->.
  destruct (dispatch_result _ _ _ _ _ _ _ r (try_providers_dispatch env w p c None) Er)
    as (front & inv & _ & _ & Hrun).
  now apply adapter_run_text in Hrun.
Qed.

Lemma success_text_trimmed_witness :
  JsString.trim "Hello!" = "Hello!" /\
  ("groq" <> "claude" -> "Hello!" <> EmptyString).
Proof.
  apply (success_text_trimmed {[ "GROQ_API_KEY" := "key" ]} sample_world
           (JObj [ ("prompt", JStr "Write a post") ])
           (mkResult "Hello!" "llama-3.1-70b-versatile" "groq")).
  vm_compute. reflexivity.
Defined.

Lemma vendor_calls_bound v w prompt key :
  length (fst (vendor_generate v w prompt key)) <= length (vendor_models v).
Proof.
  rewrite vendor_generate_loop. apply prefix_length, for_models_calls_prefix.
Qed.

Lemma adapter_calls_bound n adapter w prompt key :
  aiProviders n = Some adapter ->
  length (fst (adapter w prompt key)) <= max_calls n.
Proof.
  unfold aiProviders, max_calls.
  destruct (String.eqb n "groq"); [intros [= <-]; apply (vendor_calls_bound VGroq)|].
  destruct (String.eqb n "gemini"); [intros [= <-]; apply (vendor_calls_bound VGemini)|].
  destruct (String.eqb n "openai"); [intros [= <-]; apply (vendor_calls_bound VOpenAI)|].
  destruct (String.eqb n "claude"); [intros [= <-]; simpl; lia|discriminate].
Qed.

Lemma max_calls_le n : max_calls n <= 6.
Proof.
  unfold max_calls.
  repeat match goal with |- context [String.eqb ?a ?b] => destruct (String.eqb a b) end;
    simpl; lia.
Qed.

Lemma outbound_cons inv invs :
  length (outbound (inv :: invs)) = length (inv_calls inv) + length (outbound invs).
Proof. unfold outbound; simpl. now rewrite length_app, length_map. Qed.

Lemma calls_budget_cons n rest :
  calls_budget (n :: rest) = max_calls n + calls_budget rest.
Proof. reflexivity. Qed.

Lemma dispatch_calls_bound env w prompt candidates err invs st :
  dispatch env w prompt candidates err invs st ->
  length (outbound invs) <= calls_budget candidates.
Proof.
  induction 1 as [| |n rest err key adapter calls e invs st Hc Ha Hr _ IH
                  |n rest err key adapter calls r Hc Ha Hr];
    rewrite ?outbound_cons, ?calls_budget_cons; simpl.
  - lia.
  - lia.
  - pose proof (adapter_calls_bound n adapter w prompt key Ha) as Hb.
    rewrite Hr in Hb; simpl in Hb. lia.
  - pose proof (adapter_calls_bound n adapter w prompt key Ha) as Hb.
    rewrite Hr in Hb; simpl in Hb. lia.
Qed.

(** X6: whatever the request, the credentials and the vendors' answers, one
    request makes at most 14 outbound calls to vendors (4 + 3 + 6 + 1), and
    at most 6 when it names a provider other than "auto". *)
Theorem outbound_calls_bounded env w :
  (forall body, length (outbound (fst (generate env w body))) <= 14) /\
  (forall fields s,
      Js.own fields "provider" = JStr s -> s <> "auto" ->  s <> EmptyString ->
      length (outbound (fst (generate env w (JObj fields)))) <= 6).
Proof.
  split.
  - intros body.
    destruct (generate_outcome env w body)
      as [Hg|[(e & Hg)|(p & pv & c & _ & _ & Hc & Hg)]];
      rewrite Hg; cbn [fst]; [simpl; lia|simpl; lia|].
    pose proof (dispatch_calls_bound _ _ _ _ _ _ _
                  (try_providers_dispatch env w p c None)) as Hb.
    apply providersToTry_shape in Hc as [->|(s & _ & ->)].
    + exact Hb.
    + rewrite calls_budget_cons in Hb. change (calls_budget []) with 0 in Hb.
      pose proof (max_calls_le (JsString.toLowerCase s)). lia.
  - intros fields s Hs Hauto Hne.
    destruct (generate_outcome env w (JObj fields))
      as [Hg|[(e & Hg)|(p & pv & c & Hd & _ & Hc & Hg)]];
      rewrite Hg; cbn [fst]; [simpl; lia|simpl; lia|].
    simpl in Hd. rewrite Hs in Hd. injection Hd as _ <-.
    unfold providersToTry in Hc; simpl in Hc.
    destruct (String.eqb_spec s "auto"); [contradiction|].
    apply truthy_ne in Hne. rewrite Hne in Hc. injection Hc as <-.
    pose proof (dispatch_calls_bound _ _ _ _ _ _ _
                  (try_providers_dispatch env w p [JsString.toLowerCase s] None)) as Hb.
    rewrite calls_budget_cons in Hb. change (calls_budget []) with 0 in Hb.
    pose proof (max_calls_le (JsString.toLowerCase s)). lia.
Qed.

Lemma outbound_calls_bounded_witness :
  length (outbound (fst (generate {[ "GEMINI_API_KEY" := "key" ]} sample_world
    (JObj [ ("prompt", JStr "Write a post"); ("provider", JStr "Gemini") ])))) <= 6.
Proof.
  apply (proj2 (outbound_calls_bounded {[ "GEMINI_API_KEY" := "key" ]} sample_world)
           [ ("prompt", JStr "Write a post"); ("provider", JStr "Gemini") ] "Gemini").
  - reflexivity.
  - discriminate.
  - discriminate.
Defined.

Lemma try_providers_first_success env w prompt pre n post key adapter calls r :
  Forall (no_success env w prompt) pre ->
  credential env n = Some key ->
  aiProviders n = Some adapter ->
  adapter w prompt key = (calls, inr r) ->
  forall err,
  exists front err',
    try_providers env w prompt (pre ++ n :: post) err =
      (front ++ [mkInvocation n key calls], mkLoop (Some r) err') /\
    map inv_provider front = List.filter (keyed env) pre /\
    Forall (failed w prompt) front.
Proof.
  intros Hpre Hc Ha Hr.
  induction Hpre as [|x pre [Hx|(k & ad & cs & e & Hxc & Hxa & Hxr)] _ IH];
    intros err; simpl.
  - rewrite Hc, Ha, Hr. exists [], err. auto.
  - unfold keyed. rewrite Hx. apply IH.
  - unfold keyed. rewrite Hxc, Hxa, Hxr.
    destruct (IH (message e)) as (front & err' & -> & Hmap & Hf).
    exists (mkInvocation x k cs :: front), err'. simpl. rewrite Hmap.
    repeat split; auto. constructor; [|exact Hf].
    exists e. unfold adapter_run; simpl. now rewrite Hxa, Hxr.
Qed.

(** X7: first success wins, for any candidate list: when the candidates
    before [n] get no result (no credential, unknown name, or an error of
    whatever kind from the adapter) and the adapter of [n] returns a
    result, the reply is the 200 reply of that result; the adapters
    invoked are those of the earlier candidates that have a credential,
    then that of [n], and none of the later candidates. *)
Theorem first_success_wins env w fields p pre n post key adapter calls r :
  Js.own fields "prompt" = JStr p -> p <> EmptyString ->
  providersToTry (preference fields) = inr (pre ++ n :: post) ->
  Forall (no_success env w p) pre ->
  credential env n = Some key ->
  aiProviders n = Some adapter ->
  adapter w p key = (calls, inr r) ->
  snd (generate env w (JObj fields)) = success r /\
  map inv_provider (fst (generate env w (JObj fields))) =
    List.filter (keyed env) pre ++ [n] /\
  last (fst (generate env w (JObj fields))) = Some (mkInvocation n key calls).
Proof.
  intros Hp Hne Hcands Hpre Hc Ha Hr.
  destruct (generate_cases env w fields p Hp)
    as [[? _]|[(_ & e & He & _)|(_ & c & Hc' & Hg)]]; [contradiction|congruence|].
  rewrite Hcands in Hc'; injection Hc' as <-. rewrite Hg. cbn [fst snd].
  destruct (try_providers_first_success env w p pre n post key adapter calls r
              Hpre Hc Ha Hr None) as (front & err' & -> & Hmap & _).
  cbn [fst snd]. unfold loop_reply; simpl.
  rewrite map_app, Hmap, last_snoc. auto.
Qed.

Lemma first_success_wins_witness :
  snd (generate {[ "GROQ_API_KEY" := "expired"; "GEMINI_API_KEY" := "key" ]}
         sample_world (JObj [ ("prompt", JStr "Write a post") ])) =
    success (mkResult "Hello from Gemini" "gemini-1.5-flash-latest" "gemini") /\
  map inv_provider
    (fst (generate {[ "GROQ_API_KEY" := "expired"; "GEMINI_API_KEY" := "key" ]}
            sample_world (JObj [ ("prompt", JStr "Write a post") ]))) =
    List.filter (keyed {[ "GROQ_API_KEY" := "expired"; "GEMINI_API_KEY" := "key" ]})
      [ "groq"; "openai" ] ++ [ "gemini" ] /\
  last (fst (generate {[ "GROQ_API_KEY" := "expired"; "GEMINI_API_KEY" := "key" ]}
               sample_world (JObj [ ("prompt", JStr "Write a post") ]))) =
    Some (mkInvocation "gemini" "key"
            [ "gemini-2.0-flash-exp"; "gemini-1.5-flash-latest" ]).
Proof.
  apply (first_success_wins _ sample_world [ ("prompt", JStr "Write a post") ]
           "Write a post" [ "groq"; "openai" ] "gemini" [ "claude" ] "key" Gemini.generate).
  - reflexivity.
  - discriminate.
  - reflexivity.
  - constructor; [|constructor; [|constructor]].
    + right. exists "expired", Groq.generate. eexists _, _.
      repeat split; vm_compute; reflexivity.
    + left. reflexivity.
  - reflexivity.
  - reflexivity.
  - vm_compute. reflexivity.
Defined.

(** ** Validation and the provider preference *)

(** X8: a prompt that is truthy but no string (a number, [true], an array,
    an object), or a provider that is truthy but no string, ends the request
    in the outermost [catch]: status 500, and no adapter is invoked. *)
Theorem non_string_fields_rejected env w fields :
  (Js.truthy (Js.own fields "prompt") = true ->
   (forall s, Js.own fields "prompt" <> JStr s) ->
   fst (generate env w (JObj fields)) = [] /\
   reply_status (snd (generate env w (JObj fields))) = 500) /\
  (forall p,
      Js.own fields "prompt" = JStr p -> p <> EmptyString ->
      Js.truthy (Js.own fields "provider") = true ->
      (forall s, Js.own fields "provider" <> JStr s) ->
      fst (generate env w (JObj fields)) = [] /\
      reply_status (snd (generate env w (JObj fields))) = 500).
Proof.
  split.
  - intros Ht Hns. unfold generate, generate_body; simpl. rewrite Ht; simpl.
    destruct (Js.own fields "prompt"); simpl; auto. now destruct (Hns s).
  - intros p Hp Hne Ht Hns.
    destruct (generate_cases env w fields p Hp)
      as [[? _]|[(_ & e & _ & ->)|(_ & c & Hc & _)]]; [contradiction|auto|].
    exfalso. unfold preference, providersToTry in Hc.
    destruct (Js.own fields "provider") as [| |b|z|s|items|flds];
      simpl in *; try discriminate;
      try (rewrite Ht in Hc; discriminate).
    now destruct (Hns s).
Qed.

Lemma non_string_fields_rejected_witness :
  fst (generate {[ "GROQ_API_KEY" := "key" ]} sample_world
         (JObj [ ("prompt", JNum 42) ])) = [] /\
  reply_status (snd (generate {[ "GROQ_API_KEY" := "key" ]} sample_world
         (JObj [ ("prompt", JNum 42) ]))) = 500.
Proof.
  apply (proj1 (non_string_fields_rejected {[ "GROQ_API_KEY" := "key" ]} sample_world
                  [ ("prompt", JNum 42) ])).
  - reflexivity.
  - discriminate.
Defined.

(** X9: the 400 reply is given for every falsy prompt, not only a missing
    or empty one ([null], [0], [false]), and for every body that is an
    array or a primitive; a body that is [undefined] or [null] cannot be
    destructured and gets status 500.  In all these cases no adapter is
    invoked. *)
Theorem prompt_validation_edges env w :
  (forall fields,
      Js.truthy (Js.own fields "prompt") = false ->
      generate env w (JObj fields) = ([], missing_prompt)) /\
  (forall body,
      match body with JObj _ | JUndefined | JNull => False | _ => True end ->
      generate env w body = ([], missing_prompt)) /\
  (forall body,
      body = JUndefined \/ body = JNull ->
      fst (generate env w body) = [] /\
      reply_status (snd (generate env w body)) = 500).
Proof.
  split; [|split].
  - intros fields Ht. unfold generate, generate_body; simpl. now rewrite Ht.
  - intros body Hb. destruct body; try contradiction; reflexivity.
  - intros body [-> | ->]; split; reflexivity.
Qed.

Lemma prompt_validation_edges_witness :
  generate {[ "GROQ_API_KEY" := "key" ]} sample_world
    (JObj [ ("prompt", JNull); ("provider", JStr "groq") ]) = ([], missing_prompt).
Proof.
  apply (proj1 (prompt_validation_edges {[ "GROQ_API_KEY" := "key" ]} sample_world)).
  reflexivity.
Defined.

Lemma generate_ext env w fields1 fields2 :
  Js.own fields1 "prompt" = Js.own fields2 "prompt" ->
  providersToTry (preference fields1) = providersToTry (preference fields2) ->
  generate env w (JObj fields1) = generate env w (JObj fields2).
Proof.
  intros Hp Hc. unfold generate, generate_body; simpl. rewrite Hp.
  destruct (Js.truthy (Js.own fields2 "prompt")); simpl; [|reflexivity].
  destruct (as_prompt (Js.own fields2 "prompt")); simpl; [reflexivity|].
  unfold preference in Hc. now rewrite Hc.
Qed.

Lemma toLowerCase_empty s : JsString.toLowerCase s = EmptyString -> s = EmptyString.
Proof. now destruct s. Qed.

Lemma providersToTry_named s :
  s <> "auto" -> s <> EmptyString ->
  providersToTry (JStr s) = inr [JsString.toLowerCase s].
Proof.
  intros Ha Hne. unfold providersToTry; simpl.
  destruct (String.eqb_spec s "auto"); [contradiction|].
  apply truthy_ne in Hne. now rewrite Hne.
Qed.

(** X10: provider names are matched without regard to case: two requests
    with the same prompt whose providers differ only in case get the same
    dispatch.  The sentinel is not: a provider such as "AUTO" or "Auto" is
    taken as the name of a provider, which no adapter has, so that no
    adapter is invoked and the reply is the 500 with the generic text. *)
Theorem provider_case_insensitive env w fields1 fields2 s1 s2 :
  Js.own fields1 "prompt" = Js.own fields2 "prompt" ->
  Js.own fields1 "provider" = JStr s1 ->
  Js.own fields2 "provider" = JStr s2 ->
  s1 <> "auto" -> s2 <> "auto" ->
  JsString.toLowerCase s1 = JsString.toLowerCase s2 ->
  generate env w (JObj fields1) = generate env w (JObj fields2) /\
  (forall p, Js.own fields1 "prompt" = JStr p -> p <> EmptyString ->
     JsString.toLowerCase s1 = "auto" ->
     generate env w (JObj fields1) =
       ([], mkReply 500
              (JObj [ ("error", JStr (exhaustion_text "All providers failed")) ]))).
Proof.
  intros Hp H1 H2 Ha1 Ha2 Hl. split.
  - apply generate_ext; [exact Hp|]. unfold preference. rewrite H1, H2.
    destruct s1 as [|c1 s1].
    + symmetry in Hl. apply toLowerCase_empty in Hl as ->. reflexivity.
    + destruct s2 as [|c2 s2]; [discriminate Hl|].
      rewrite !providersToTry_named by (auto; discriminate). now rewrite Hl.
  - intros p Hp1 Hne Hauto.
    destruct (generate_cases env w fields1 p Hp1)
      as [[? _]|[(_ & e & He & _)|(_ & c & Hc & ->)]]; [contradiction| |].
    + exfalso. unfold preference in He. rewrite H1 in He.
      rewrite providersToTry_named in He; [discriminate|exact Ha1|].
      intros ->. discriminate Hauto.
    + unfold preference in Hc. rewrite H1 in Hc.
      rewrite providersToTry_named in Hc; [|exact Ha1|intros ->; discriminate Hauto].
      injection Hc as <-. rewrite Hauto. reflexivity.
Qed.

Lemma provider_case_insensitive_witness :
  generate {[ "GROQ_API_KEY" := "key" ]} sample_world
    (JObj [ ("prompt", JStr "Write a post"); ("provider", JStr "GROQ") ]) =
  generate {[ "GROQ_API_KEY" := "key" ]} sample_world
    (JObj [ ("prompt", JStr "Write a post"); ("provider", JStr "groq") ]).
Proof.
  apply (provider_case_insensitive {[ "GROQ_API_KEY" := "key" ]} sample_world
           [ ("prompt", JStr "Write a post"); ("provider", JStr "GROQ") ]
           [ ("prompt", JStr "Write a post"); ("provider", JStr "groq") ]
           "GROQ" "groq").
  - reflexivity.
  - reflexivity.
  - reflexivity.
  - discriminate.
  - discriminate.
  - reflexivity.
Defined.

(** X11: a provider that is falsy ([null], the empty string, [0], [false])
    is treated as absent: the dispatch is that of the same request without
    a provider, over the four-provider chain. *)
Theorem falsy_provider_uses_chain env w fields1 fields2 :
  Js.own fields1 "prompt" = Js.own fields2 "prompt" ->
  Js.truthy (Js.own fields1 "provider") = false ->
  Js.own fields2 "provider" = JUndefined ->
  providersToTry (preference fields1) = inr [ "groq"; "openai"; "gemini"; "claude" ] /\
  generate env w (JObj fields1) = generate env w (JObj fields2).
Proof.
  intros Hp Hf Hu.
  assert (H1 : providersToTry (preference fields1) = inr auto_chain).
  { apply providersToTry_auto. unfold preference.
    destruct (Js.own fields1 "provider"); auto. }
  split; [exact H1|].
  apply generate_ext; [exact Hp|]. rewrite H1. unfold preference. now rewrite Hu.
Qed.

Lemma falsy_provider_uses_chain_witness :
  providersToTry (preference [ ("prompt", JStr "Write a post"); ("provider", JNull) ]) =
    inr [ "groq"; "openai"; "gemini"; "claude" ] /\
  generate {[ "GROQ_API_KEY" := "key" ]} sample_world
    (JObj [ ("prompt", JStr "Write a post"); ("provider", JNull) ]) =
  generate {[ "GROQ_API_KEY" := "key" ]} sample_world
    (JObj [ ("prompt", JStr "Write a post") ]).
Proof.
  apply (falsy_provider_uses_chain {[ "GROQ_API_KEY" := "key" ]} sample_world
           [ ("prompt", JStr "Write a post"); ("provider", JNull) ]
           [ ("prompt", JStr "Write a post") ]).
  - reflexivity.
  - reflexivity.
  - reflexivity.
Defined.

(** ** Replies *)

(** X12: every request gets a reply with status 200, 400 or 500.  Status
    400 means that no adapter was invoked, and status 200 is given exactly
    when the prompt is a string and the last adapter invoked returned a
    result. *)
Theorem reply_status_classes env w body :
  let invs := fst (generate env w body) in
  let reply := snd (generate env w body) in
  (reply_status reply = 200 \/ reply_status reply = 400 \/ reply_status reply = 500) /\
  (reply_status reply = 400 -> invs = [] /\ reply = missing_prompt) /\
  (reply_status reply = 200 <->
   exists p pv front inv r,
     destructure body = inr (JStr p, pv) /\ invs = front ++ [inv] /\
     adapter_run w p inv = Some (inv_calls inv, inr r)).
Proof.
  intros invs reply. subst invs reply.
  destruct (generate_outcome env w body)
    as [Hg|[(e & Hg)|(p & pv & c & Hd & _ & _ & Hg)]]; rewrite Hg; cbn [fst snd].
  - split; [auto|]. split; [auto|]. split; [discriminate|].
    intros (? & ? & front & ? & ? & _ & Hf & _). now destruct front.
  - split; [auto|]. split; [discriminate|]. split; [discriminate|].
    intros (? & ? & front & ? & ? & _ & Hf & _). now destruct front.
  - pose proof (try_providers_dispatch env w p c None) as Hdisp.
    unfold loop_reply.
    destruct (result (snd (try_providers env w p c None))) as [r|] eqn:Er.
    + split; [auto|]. split; [discriminate|]. split; [intros _|reflexivity].
      destruct (dispatch_result _ _ _ _ _ _ _ r Hdisp Er) as (front & inv & ? & _ & ?).
      exists p, pv, front, inv, r. auto.
    + split; [auto|]. split; [discriminate|]. split; [discriminate|].
      intros (p' & pv' & front & inv & r & Hd' & Hf & Hrun).
      rewrite Hd in Hd'. injection Hd' as <- <-.
      rewrite (dispatch_winner _ _ _ _ _ _ _ _ _ _ Hdisp Hf Hrun) in Er.
      discriminate.
Qed.

Lemma reply_status_classes_witness :
  fst (generate {[ "GROQ_API_KEY" := "key" ]} sample_world
         (JObj [ ("prompt", JStr EmptyString) ])) = [] /\
  snd (generate {[ "GROQ_API_KEY" := "key" ]} sample_world
         (JObj [ ("prompt", JStr EmptyString) ])) = missing_prompt.
Proof.
  apply (proj1 (proj2 (reply_status_classes {[ "GROQ_API_KEY" := "key" ]} sample_world
                         (JObj [ ("prompt", JStr EmptyString) ])))).
  reflexivity.
Defined.

(** X13: the exhaustion reply reports the last failure only.  Its text is
    built around the message of the error of the last adapter invoked, and
    around "All providers failed" when that error has no message or an
    empty one, whatever the adapters invoked before it raised, and when no
    adapter was invoked. *)
Theorem exhaustion_reports_last_error env w fields p candidates :
  Js.own fields "prompt" = JStr p -> p <> EmptyString ->
  providersToTry (preference fields) = inr candidates ->
  Forall (no_success env w p) candidates ->
  snd (generate env w (JObj fields)) =
  mkReply 500
    (JObj [ ("error",
             JStr (exhaustion_text
                     (last_detail w p (fst (generate env w (JObj fields)))))) ]).
Proof.
  intros Hp Hne Hc Hall.
  destruct (generate_cases env w fields p Hp)
    as [[? _]|[(_ & e & He & _)|(_ & c & Hc' & Hg)]]; [contradiction|congruence|].
  rewrite Hc in Hc'; injection Hc' as <-. rewrite Hg. cbn [fst snd].
  pose proof (no_success_no_result env w p candidates None Hall) as Hres.
  destruct (dispatch_exhausted _ _ _ _ _ _ _
              (try_providers_dispatch env w p candidates None) Hres) as (_ & Hl).
  unfold loop_reply. rewrite Hres. unfold all_failed, last_detail.
  rewrite exhausted_message_text.
  destruct (last (fst (try_providers env w p candidates None))) as [inv|].
  - destruct Hl as (e & -> & ->). reflexivity.
  - now rewrite Hl.
Qed.

Lemma exhaustion_reports_last_error_witness :
  snd (generate {[ "GROQ_API_KEY" := "expired" ]} sample_world
         (JObj [ ("prompt", JStr "Write a post") ])) =
  mkReply 500
    (JObj [ ("error",
             JStr (exhaustion_text
                     (last_detail sample_world "Write a post"
                        (fst (generate {[ "GROQ_API_KEY" := "expired" ]} sample_world
                                (JObj [ ("prompt", JStr "Write a post") ])))))) ]).
Proof.
  apply (exhaustion_reports_last_error {[ "GROQ_API_KEY" := "expired" ]} sample_world
           [ ("prompt", JStr "Write a post") ] "Write a post" auto_chain).
  - reflexivity.
  - discriminate.
  - reflexivity.
  - constructor.
    + right. exists "expired", Groq.generate. eexists _, _.
      repeat split; vm_compute; reflexivity.
    + repeat (constructor; [left; reflexivity|]). constructor.
Defined.

(** ** The route [POST /test] *)

Lemma credential_gemini env :
  credential env "gemini" =
  match env_or (env !! "GEMINI_API_KEY") (env !! "BARD_API_KEY") with
  | Some key => if JsString.truthy key then Some key else None
  | None => None
  end.
Proof. reflexivity. Qed.

(** X14: the test route probes Gemini exactly when the dispatcher would
    have a credential for Gemini, and with that credential: it then makes
    one call, to gemini-pro, and replies 200 with the text as it came (even
    a blank one) and the length of the credential, or 500 when the call
    raises.  Without a credential it makes no call, and the [envCheck] of
    its 500 reply says [false] for both variables. *)
Theorem test_route_uses_gemini_credential error_toString env w :
  (credential env "gemini" = None ->
   TestRoute.handler error_toString env w =
   ([], mkReply 500
          (JObj [ ("error", JStr "GEMINI_API_KEY not found in environment variables");
                  ("envCheck", JObj [ ("GEMINI_API_KEY", JBool false);
                                      ("BARD_API_KEY", JBool false) ]) ]))) /\
  (forall key,
      credential env "gemini" = Some key ->
      fst (TestRoute.handler error_toString env w) = [ (key, "gemini-pro") ] /\
      (forall response,
          gemini_generateContent w key "gemini-pro" TestRoute.test_prompt = inr response ->
          snd (TestRoute.handler error_toString env w) =
          mkReply 200
            (JObj [ ("success", JBool true);
                    ("message", JStr "Gemini API is working!");
                    ("response", JStr response);
                    ("apiKeyLength", JNum (Z.of_nat (String.length key))) ])) /\
      (forall error,
          gemini_generateContent w key "gemini-pro" TestRoute.test_prompt = inl error ->
          snd (TestRoute.handler error_toString env w) =
          mkReply 500
            (JObj [ ("error", JStr "Gemini API test failed");
                    ("message",
                     match message error with Some m => JStr m | None => JUndefined end);
                    ("details", JStr (error_toString error)) ]))).
Proof.
  rewrite credential_gemini. unfold TestRoute.handler, TestRoute.key_missing, env_or.
  split.
  - destruct (env !! "GEMINI_API_KEY") as [a|] eqn:Ea;
      [destruct (JsString.truthy a) eqn:Ta; simpl; rewrite ?Ta; [discriminate|]|];
      (destruct (env !! "BARD_API_KEY") as [b|] eqn:Eb;
        [destruct (JsString.truthy b) eqn:Tb; simpl; rewrite ?Ta, ?Tb;
           [discriminate|reflexivity]
        |simpl; rewrite ?Ta; reflexivity]).
  - intros key.
    destruct (env !! "GEMINI_API_KEY") as [a|] eqn:Ea;
      [destruct (JsString.truthy a) eqn:Ta; simpl; rewrite ?Ta|];
      try (destruct (env !! "BARD_API_KEY") as [b|] eqn:Eb;
           [destruct (JsString.truthy b) eqn:Tb; simpl; rewrite ?Tb|]);
      try discriminate;
      intros [= <-]; (split; [reflexivity|]);
      (split; [intros response ->; reflexivity | intros error ->; reflexivity]).
Qed.

Lemma test_route_uses_gemini_credential_witness :
  fst (TestRoute.handler (fun _ => "Error") {[ "BARD_API_KEY" := "key" ]} sample_world) =
    [ ("key", "gemini-pro") ].
Proof.
  apply (proj2 (test_route_uses_gemini_credential (fun _ => "Error")
                  {[ "BARD_API_KEY" := "key" ]} sample_world) "key").
  reflexivity.
Defined.

(** ** The CORS middleware *)

(** X15: header names are taken without regard to case.  The middleware
    always allows credentials, and it reflects the request's origin
    whenever that origin contains "localhost" or "127.0.0.1" anywhere (so
    also an origin such as http://localhost.example.org); for any other
    origin, and without one, it allows http://localhost:3000.  A request
    with method OPTIONS, and no other, is answered with status 200 without
    reaching the routes.  A request that is passed on to the routes has
    its headers other than the four the middleware sets as they were. *)
Theorem cors_reflects_local_origins origin method headers :
  let headers' := fst (Cors.middleware origin method headers) in
  let outcome := snd (Cors.middleware origin method headers) in
  (forall h,
     JsString.toLowerCase h = "access-control-allow-credentials" ->
     Cors.get_header h headers' = Some "true") /\
  (forall h o,
     JsString.toLowerCase h = "access-control-allow-origin" ->
     origin = Some o ->
     JsString.includes o "localhost" = true \/ JsString.includes o "127.0.0.1" = true ->
     Cors.get_header h headers' = Some o) /\
  (forall h before after,
     JsString.toLowerCase h = "access-control-allow-origin" ->
     origin = Some (before +:+ "localhost" +:+ after) ->
     Cors.get_header h headers' = origin) /\
  (forall h,
     JsString.toLowerCase h = "access-control-allow-origin" ->
     origin = None \/
     (exists o, origin = Some o /\ JsString.includes o "localhost" = false /\
                JsString.includes o "127.0.0.1" = false) ->
     Cors.get_header h headers' = Some "http://localhost:3000") /\
  (outcome = Cors.SendStatus 200 <-> method = "OPTIONS") /\
  (outcome = Cors.Next <-> method <> "OPTIONS") /\
  (forall h,
     method <> "OPTIONS" ->
     JsString.toLowerCase h <> "access-control-allow-origin" ->
     JsString.toLowerCase h <> "access-control-allow-headers" ->
     JsString.toLowerCase h <> "access-control-allow-methods" ->
     JsString.toLowerCase h <> "access-control-allow-credentials" ->
     Cors.get_header h headers' = Cors.get_header h headers).
Proof.
  intros headers' outcome. subst headers' outcome.
  unfold Cors.middleware, Cors.set_header, Cors.get_header; cbn [fst snd].
  change (JsString.toLowerCase "Access-Control-Allow-Origin")
    with "access-control-allow-origin".
  change (JsString.toLowerCase "Access-Control-Allow-Headers")
    with "access-control-allow-headers".
  change (JsString.toLowerCase "Access-Control-Allow-Methods")
    with "access-control-allow-methods".
  change (JsString.toLowerCase "Access-Control-Allow-Credentials")
    with "access-control-allow-credentials".
  assert (Hreflect : forall o,
             JsString.includes o "localhost" = true \/
             JsString.includes o "127.0.0.1" = true ->
             Cors.allow_origin (Some o) = o).
  { intros o Ho. unfold Cors.allow_origin.
    assert (Ht : JsString.truthy o = true).
    { destruct o; [destruct Ho; discriminate|reflexivity]. }
    rewrite Ht. destruct Ho as [-> | ->]; [reflexivity|].
    now rewrite orb_true_r. }
  split; [intros h ->; now rewrite lookup_insert_eq|].
  split.
  { intros h o -> -> Ho. rewrite !lookup_insert_ne by discriminate.
    rewrite lookup_insert_eq. now rewrite Hreflect. }
  split.
  { intros h before after -> ->. rewrite !lookup_insert_ne by discriminate.
    rewrite lookup_insert_eq. rewrite Hreflect; [reflexivity|].
    left. apply includes_app_r, includes_here. }
  split.
  { intros h -> H. rewrite !lookup_insert_ne by discriminate. rewrite lookup_insert_eq.
    destruct H as [-> | (o & -> & H1 & H2)]; [reflexivity|].
    unfold Cors.allow_origin. rewrite H1, H2. now rewrite andb_false_r. }
  split.
  { destruct (String.eqb_spec method "OPTIONS"); split; congruence. }
  split.
  { destruct (String.eqb_spec method "OPTIONS"); split; congruence. }
  intros h _ H1 H2 H3 H4. now rewrite !lookup_insert_ne by congruence.
Qed.

Lemma cors_reflects_local_origins_witness :
  Cors.get_header "access-control-allow-origin"
    (fst (Cors.middleware (Some "http://localhost.example.org") "GET"
            {[ "access-control-allow-origin" := "https://app.example.org" ]})) =
  Some "http://localhost.example.org".
Proof.
  apply (proj1 (proj2 (cors_reflects_local_origins
                         (Some "http://localhost.example.org") "GET"
                         {[ "access-control-allow-origin" := "https://app.example.org" ]}))
           "access-control-allow-origin" "http://localhost.example.org").
  - reflexivity.
  - reflexivity.
  - left. reflexivity.
Defined.

(** ** The client on the server's replies *)

Lemma success_reply_trimmed env w body r :
  snd (generate env w body) = success r -> JsString.trim (text r) = text r.
Proof.
  intros H.
  destruct (generate_outcome env w body)
    as [Hg|[(e & Hg)|(p & pv & c & _ & _ & _ & Hg)]];
    rewrite Hg in H; cbn [snd] in H; try discriminate H.
  unfold loop_reply in H.
  destruct (result (snd (try_providers env w p c None))) as [r'|] eqn:Er;
    [|discriminate H].
  apply success_inj in H as ->.
  destruct (dispatch_result _ _ _ _ _ _ _ r (try_providers_dispatch env w p c None) Er)
    as (front & inv & _ & _ & Hrun).
  now apply adapter_run_text in Hrun.
Qed.

Section ClientOnReplies.

Variable JSON_parse : string -> Throws JsVal.

(** X16: when the dispatcher's 200 reply reaches the client and its body
    parses to the JSON the dispatcher sent, the client returns the text of
    the dispatcher's result unchanged; when that text is empty (which only
    a result of the Claude adapter can be) the client raises "No text
    generated. Please try again." instead. *)
Theorem client_returns_server_text env w body r statusText s :
  snd (generate env w body) = success r ->
  JSON_parse s = inr (reply_json (success r)) ->
  Client.finish JSON_parse (delivered (success r) statusText s) s =
  match text r with
  | EmptyString => inl (new_Error "No text generated. Please try again.")
  | _ => inr (text r)
  end.
Proof.
  intros Hg Hparse. apply success_reply_trimmed in Hg.
  unfold Client.finish, delivered. simpl. rewrite Hparse. simpl.
  destruct (text r) as [|c t] eqn:Et; simpl; [reflexivity|].
  now rewrite Hg.
Qed.

Lemma finish_error status statusText s msg :
  status = 400 \/ status = 500 ->
  JSON_parse s = inr (JObj [ ("error", JStr msg) ]) ->
  JsString.truthy msg = true ->
  Client.finish JSON_parse (Client.mkResponse status statusText (inr s)) s =
  inl (new_Error msg).
Proof.
  intros Hs Hparse Ht. unfold Client.finish, Client.failure_message, Client.ok.
  destruct Hs as [-> | ->]; simpl; rewrite Hparse; simpl;
    unfold Js.or; simpl; rewrite Ht; simpl; now rewrite ?Ht.
Qed.

(** X17: every reply of the dispatcher that is not a 200 carries an error
    text that is not empty, and when it reaches the client and parses to
    the JSON the dispatcher sent, the client raises an error with exactly
    that text. *)
Theorem client_relays_server_error env w body statusText s :
  reply_status (snd (generate env w body)) <> 200 ->
  JSON_parse s = inr (reply_json (snd (generate env w body))) ->
  exists msg,
    reply_json (snd (generate env w body)) = JObj [ ("error", JStr msg) ] /\
    msg <> EmptyString /\
    Client.finish JSON_parse (delivered (snd (generate env w body)) statusText s) s =
    inl (new_Error msg).
Proof.
  intros Hst Hparse. unfold delivered.
  destruct (generate_outcome env w body)
    as [Hg|[(e & Hg)|(p & pv & c & _ & _ & _ & Hg)]];
    rewrite Hg in *; cbn [snd] in *.
  - eexists. split; [reflexivity|]. split; [discriminate|].
    apply finish_error; auto.
  - unfold unexpected in *; cbn [reply_status reply_json] in *.
    eexists. split; [reflexivity|].
    assert (Ht : JsString.truthy
                   match message e with
                   | Some m => if JsString.truthy m then m else "AI proxy error"
                   | None => "AI proxy error"
                   end = true).
    { destruct (message e) as [m|]; [|reflexivity].
      destruct (JsString.truthy m) eqn:E; [exact E|reflexivity]. }
    split; [now apply truthy_ne|]. apply finish_error; auto.
  - unfold loop_reply in *.
    destruct (result (snd (try_providers env w p c None))) as [r|];
      [now destruct Hst|].
    unfold all_failed in *; cbn [reply_status reply_json] in *.
    eexists. split; [reflexivity|].
    split; [discriminate|]. apply finish_error; auto.
Qed.

End ClientOnReplies.

Lemma client_returns_server_text_witness :
  Client.finish
    (fun _ => inr (reply_json
                     (success (mkResult "Hello!" "llama-3.1-70b-versatile" "groq"))))
    (delivered (success (mkResult "Hello!" "llama-3.1-70b-versatile" "groq"))
       "OK" "{...}") "{...}" =
  inr "Hello!".
Proof.
  apply (client_returns_server_text
           (fun _ => inr (reply_json
                            (success (mkResult "Hello!" "llama-3.1-70b-versatile" "groq"))))
           {[ "GROQ_API_KEY" := "key" ]} sample_world
           (JObj [ ("prompt", JStr "Write a post") ])
           (mkResult "Hello!" "llama-3.1-70b-versatile" "groq") "OK" "{...}").
  - vm_compute. reflexivity.
  - reflexivity.
Defined.

Lemma client_relays_server_error_witness :
  exists msg,
    reply_json (snd (generate ∅ sample_world (JObj []))) = JObj [ ("error", JStr msg) ] /\
    msg <> EmptyString /\
    Client.finish (fun _ => inr (reply_json (snd (generate ∅ sample_world (JObj [])))))
      (delivered (snd (generate ∅ sample_world (JObj []))) "Bad Request" "{...}") "{...}" =
    inl (new_Error msg).
Proof.
  apply (client_relays_server_error
           (fun _ => inr (reply_json (snd (generate ∅ sample_world (JObj [])))))
           ∅ sample_world (JObj []) "Bad Request" "{...}").
  - vm_compute. discriminate.
  - reflexivity.
Defined.

(** ** The client's log *)

Lemma flag_after_app flag l1 l2 :
  flag_after flag (l1 ++ l2) =
  match flag_after flag l1 with
  | Some flag' => flag_after flag' l2
  | None => None
  end.
Proof.
  revert flag; induction l1 as [|ev l1 IH]; intros flag; simpl; [reflexivity|].
  destruct ev, flag; auto.
Qed.

Lemma step_flag_after parse st a :
  single_flight st ->
  flag_after false (Client.log st) = Some (Client.inFlight st) ->
  flag_after false (Client.log (Client.step parse st a)) =
  Some (Client.inFlight (Client.step parse st a)).
Proof.
  intros Hinv Hlog.
  assert (Hsusp : forall i s, Client.suspended st !! i = Some s -> Client.inFlight st = true).
  { intros i s Hi. destruct Hinv as [(_ & Hs)|(Hf & _)]; [|exact Hf].
    rewrite Hs in Hi. discriminate. }
  destruct a as [prompt provider|i outcome|i outcome]; simpl.
  - unfold Client.call. destruct (Client.inFlight st) eqn:Hf; simpl.
    + now rewrite flag_after_app, Hlog.
    + destruct prompt; simpl; rewrite !flag_after_app, Hlog; reflexivity.
  - unfold Client.resume_fetch.
    destruct (Client.suspended st !! i) as [[|response]|] eqn:Hi; [|exact Hlog|exact Hlog].
    destruct outcome; simpl; [|exact Hlog].
    now rewrite flag_after_app, Hlog, (Hsusp _ _ Hi).
  - unfold Client.resume_text.
    destruct (Client.suspended st !! i) as [[|response]|] eqn:Hi; [exact Hlog| |exact Hlog].
    unfold Client.settle. simpl.
    rewrite flag_after_app, Hlog, (Hsusp _ _ Hi). simpl.
    now destruct (bindT outcome _).
Qed.

(** X18: over every interleaving of calls and settlements, the log of the
    client is well formed: the flag is set only when it is clear and
    cleared only when it is set, a request is sent only while it is set,
    and the flag at the end is the one the log tells. *)
Theorem client_log_well_formed parse actions :
  flag_after false (Client.log (Client.run parse actions)) =
  Some (Client.inFlight (Client.run parse actions)).
Proof.
  unfold Client.run. induction actions as [|a actions IH] using rev_ind.
  - reflexivity.
  - rewrite foldl_snoc. apply step_flag_after; [|exact IH].
    apply run_single_flight.
Qed.
